(** * FragmentariumWeb: the .frag beautifier ([scripts/beautify_fragments.py])

    A shallow embedding of the formatter's text-to-text core
    ([normalize_newlines], [strip_comments_for_braces], [line_brace_stats],
    [collapse_blank_lines], [format_frag_text]) and the properties of it
    that the specification states.

    Modelling conventions.
    - A Python [str] is a [list ascii]; a character is its code point, so the
      model covers the texts whose code points are below 256.  [isspace] and
      [lower] are Python's on that range.
    - Python integers that may be decremented ([indent_level], [delta],
      [leading_close]) are [Z]; list indices and lengths are [nat].
    - The scanner's [while] loop is run with fuel, and [line[i]] is a checked
      lookup: an outcome is [Ok v], [IndexError] or [OutOfFuel].  The callers
      thread that outcome with [bind]. *)

From Stdlib Require Import Ascii String List ZArith Bool Arith Lia.
From Stdlib Require DecimalString DecimalZ Finite.
Import ListNotations.

Local Open Scope list_scope.

(** ** Characters and strings *)

Definition str := list ascii.

Definition lit (s : string) : str := list_ascii_of_string s.

Definition LF : ascii := "010"%char.
Definition CR : ascii := "013"%char.
Definition TAB : ascii := "009"%char.
Definition SPACE : ascii := " "%char.
Definition DQUOTE : ascii := "034"%char.
Definition SQUOTE : ascii := "039"%char.
Definition BACKSLASH : ascii := "092"%char.
Definition SLASH : ascii := "/"%char.
Definition STAR : ascii := "*"%char.
Definition HASH : ascii := "#"%char.
Definition LBRACE : ascii := "{"%char.
Definition RBRACE : ascii := "}"%char.

Definition str_eqb (a b : str) : bool :=
  if list_eq_dec ascii_dec a b then true else false.

(** [str.isspace] on one character: the code points 9-13, 28-32, 0x85 and
    0xA0 are Python's whitespace below 256. *)
Definition isspace (c : ascii) : bool :=
  let n := nat_of_ascii c in
  ((9 <=? n) && (n <=? 13)) || ((28 <=? n) && (n <=? 32))
  || (n =? 133) || (n =? 160).

(** The characters of the argument of [rstrip(" \t")]. *)
Definition is_space_or_tab (c : ascii) : bool :=
  Ascii.eqb c SPACE || Ascii.eqb c TAB.

(** [str.lower] on one character: A-Z, and the Latin-1 capitals
    0xC0-0xDE except the multiplication sign 0xD7, move up by 32. *)
Definition lower_char (c : ascii) : ascii :=
  let n := nat_of_ascii c in
  if ((65 <=? n) && (n <=? 90))
     || ((192 <=? n) && (n <=? 222) && negb (n =? 215))
  then ascii_of_nat (n + 32) else c.

Definition lower (s : str) : str := map lower_char s.

Fixpoint drop_while (p : ascii -> bool) (s : str) : str :=
  match s with
  | [] => []
  | c :: s' => if p c then drop_while p s' else s
  end.

(** [s.lstrip()], [s.rstrip(chars)], [s.rstrip()] and [s.strip()]. *)
Definition lstrip (s : str) : str := drop_while isspace s.

Definition rstrip_by (p : ascii -> bool) (s : str) : str :=
  rev (drop_while p (rev s)).

Definition rstrip_space_tab (s : str) : str := rstrip_by is_space_or_tab s.

Definition rstrip (s : str) : str := rstrip_by isspace s.

Definition strip (s : str) : str := rstrip (lstrip s).

(** [s.startswith(p)]. *)
Fixpoint startswith (s p : str) : bool :=
  match p, s with
  | [], _ => true
  | _ :: _, [] => false
  | a :: p', b :: s' => Ascii.eqb a b && startswith s' p'
  end.

(** [s.count(c)] for a one-character needle. *)
Fixpoint count_char (c : ascii) (s : str) : Z :=
  match s with
  | [] => 0%Z
  | x :: s' => ((if Ascii.eqb x c then 1 else 0) + count_char c s')%Z
  end.

(** [unit * k] for a Python integer [k]: empty when [k <= 0]. *)
Fixpoint repeat_str (unit : str) (k : nat) : str :=
  match k with
  | O => []
  | S k' => unit ++ repeat_str unit k'
  end.

Definition str_mul (unit : str) (k : Z) : str := repeat_str unit (Z.to_nat k).

(** [text.split("\n")]: always at least one piece. *)
Fixpoint split_lines (s : str) : list str :=
  match s with
  | [] => [[]]
  | c :: s' =>
      if Ascii.eqb c LF then [] :: split_lines s'
      else match split_lines s' with
           | l :: ls => (c :: l) :: ls
           | [] => [[c]]
           end
  end.

(** ["\n".join(lines)]. *)
Fixpoint join_lines (ls : list str) : str :=
  match ls with
  | [] => []
  | [l] => l
  | l :: ls' => l ++ LF :: join_lines ls'
  end.

Definition INDENT : str := [SPACE; SPACE].

(** ** Outcomes of a call *)

Inductive result (A : Type) : Type :=
| Ok (a : A)
| IndexError
| OutOfFuel.

Arguments Ok {A} a.
Arguments IndexError {A}.
Arguments OutOfFuel {A}.

Definition bind {A B : Type} (r : result A) (k : A -> result B) : result B :=
  match r with
  | Ok a => k a
  | IndexError => IndexError
  | OutOfFuel => OutOfFuel
  end.

Notation "x <- r ;; k" := (bind r (fun x => k))
  (at level 61, r at next level, right associativity).

(** [line[i]]. *)
Definition index (line : str) (i : nat) : result ascii :=
  match nth_error line i with
  | Some c => Ok c
  | None => IndexError
  end.

(** ** [normalize_newlines] *)

(** [text.replace("\r\n", "\n")]: left to right, without overlap. *)
Fixpoint replace_crlf (s : str) : str :=
  match s with
  | [] => []
  | c :: s' =>
      match s' with
      | d :: s'' =>
          if Ascii.eqb c CR && Ascii.eqb d LF then LF :: replace_crlf s''
          else c :: replace_crlf s'
      | [] => [c]
      end
  end.

(** [text.replace("\r", "\n")]. *)
Definition replace_cr (s : str) : str :=
  map (fun c => if Ascii.eqb c CR then LF else c) s.

Definition normalize_newlines (text : str) : str :=
  replace_cr (replace_crlf text).

(** ** [strip_comments_for_braces] *)

Module Scan.

(** The local variables of the loop. *)
Record state : Type := mk {
  i : nat;
  out : str;
  in_block_comment : bool;
  in_string : option ascii;
  escape : bool
}.

Inductive control : Type :=
| Continue (st : state)
| Break (st : state).

Definition advance (k : nat) (st : state) : state :=
  mk (i st + k) (out st) (in_block_comment st) (in_string st) (escape st).

Definition append (ch : ascii) (st : state) : state :=
  mk (i st) (out st ++ [ch]) (in_block_comment st) (in_string st) (escape st).

Definition set_block (b : bool) (st : state) : state :=
  mk (i st) (out st) b (in_string st) (escape st).

Definition set_string (q : option ascii) (st : state) : state :=
  mk (i st) (out st) (in_block_comment st) q (escape st).

Definition set_escape (e : bool) (st : state) : state :=
  mk (i st) (out st) (in_block_comment st) (in_string st) e.

(** [nxt == c], where [nxt] is [""] past the end of the line. *)
Definition nxt_is (nxt : option ascii) (c : ascii) : bool :=
  match nxt with
  | Some d => Ascii.eqb d c
  | None => false
  end.

(** One pass through the body of [while i < n]. *)
Definition body (line : str) (st : state) : result control :=
  let n := length line in
  ch <- index line (i st) ;;
  nxt <- (if i st + 1 <? n
          then (d <- index line (i st + 1) ;; Ok (Some d))
          else Ok None) ;;
  if in_block_comment st then
    if Ascii.eqb ch STAR && nxt_is nxt SLASH
    then Ok (Continue (advance 2 (set_block false st)))
    else Ok (Continue (advance 1 st))
  else
    match in_string st with
    | Some q =>
        let st1 := append ch st in
        let st2 :=
          if escape st1 then set_escape false st1
          else if Ascii.eqb ch BACKSLASH then set_escape true st1
          else if Ascii.eqb ch q then set_string None st1
          else st1 in
        Ok (Continue (advance 1 st2))
    | None =>
        if Ascii.eqb ch SQUOTE || Ascii.eqb ch DQUOTE
        then Ok (Continue (advance 1 (append ch (set_string (Some ch) st))))
        else if Ascii.eqb ch SLASH && nxt_is nxt SLASH
        then Ok (Break st)
        else if Ascii.eqb ch SLASH && nxt_is nxt STAR
        then Ok (Continue (advance 2 (set_block true st)))
        else Ok (Continue (advance 1 (append ch st)))
    end.

(** [while i < n: body], at most [fuel] passes. *)
Fixpoint while (fuel : nat) (line : str) (st : state) : result state :=
  if i st <? length line then
    match fuel with
    | O => OutOfFuel
    | S fuel' =>
        c <- body line st ;;
        match c with
        | Continue st' => while fuel' line st'
        | Break st' => Ok st'
        end
    end
  else Ok st.

Definition init (in_block_comment : bool) : state :=
  mk 0 [] in_block_comment None false.

End Scan.

(** The loop run with [fuel] passes allowed. *)
Definition strip_comments_for_braces_fuel (fuel : nat) (line : str)
    (in_block_comment : bool) : result (str * bool) :=
  st <- Scan.while fuel line (Scan.init in_block_comment) ;;
  Ok (Scan.out st, Scan.in_block_comment st).

(** Every pass moves [i] forward, so [len(line)] passes are enough
    ([scan_while_fuel] below); the function is run with that many. *)
Definition strip_comments_for_braces (line : str) (in_block_comment : bool)
    : result (str * bool) :=
  strip_comments_for_braces_fuel (length line) line in_block_comment.

(** ** [line_brace_stats] *)

(** The [for ch in stripped] loop: the length of the leading run of [}]. *)
Fixpoint count_leading_close (stripped : str) : Z :=
  match stripped with
  | [] => 0%Z
  | ch :: s' =>
      if Ascii.eqb ch RBRACE then (1 + count_leading_close s')%Z else 0%Z
  end.

Definition line_brace_stats (line : str) (in_block_comment : bool)
    : result (Z * Z * bool) :=
  r <- strip_comments_for_braces line in_block_comment ;;
  let '(code, next_in_block_comment) := r in
  let stripped := lstrip code in
  let leading_close := count_leading_close stripped in
  let delta := (count_char LBRACE code - count_char RBRACE code)%Z in
  Ok (delta, leading_close, next_in_block_comment).

(** ** [collapse_blank_lines] *)

(** The [for raw in lines] loop, with [out] and [last_blank] as its state. *)
Fixpoint collapse_loop (lines : list str) (out : list str) (last_blank : bool)
    : list str :=
  match lines with
  | [] => out
  | raw :: lines' =>
      if str_eqb raw [] then
        if last_blank then collapse_loop lines' out last_blank
        else collapse_loop lines' (out ++ [[]]) true
      else collapse_loop lines' (out ++ [raw]) false
  end.

(** [while out and out[-1] == "": out.pop()], on the reversed list. *)
Fixpoint pop_blank_rev (rev_out : list str) : list str :=
  match rev_out with
  | [] => []
  | x :: r => if str_eqb x [] then pop_blank_rev r else rev_out
  end.

Definition pop_trailing_blank (out : list str) : list str :=
  rev (pop_blank_rev (rev out)).

Definition collapse_blank_lines (lines : list str) : list str :=
  pop_trailing_blank (collapse_loop lines [] true).

(** ** [format_frag_text] *)

Module Fmt.

(** The local variables of [format_frag_text] that its loop updates. *)
Record state : Type := mk {
  out : list str;
  indent_level : Z;
  in_preset : bool;
  in_block_comment : bool
}.

Definition init : state := mk [] 0%Z false false.

Definition emit (l : str) (st : state) : state :=
  mk (out st ++ [l]) (indent_level st) (in_preset st) (in_block_comment st).

Definition set_preset (b : bool) (st : state) : state :=
  mk (out st) (indent_level st) b (in_block_comment st).

End Fmt.

(** One pass through the body of [for original in lines]. *)
Definition format_line (st : Fmt.state) (original : str) : result Fmt.state :=
  let line := rstrip_space_tab original in
  let stripped := strip line in
  if str_eqb stripped [] then Ok (Fmt.emit [] st)
  else
    let lower := lower stripped in
    let is_directive := startswith stripped [HASH] in
    if is_directive then
      let st1 := Fmt.emit stripped st in
      if startswith lower (lit "#preset ") then Ok (Fmt.set_preset true st1)
      else if str_eqb lower (lit "#endpreset") then Ok (Fmt.set_preset false st1)
      else Ok st1
    else if Fmt.in_preset st then Ok (Fmt.emit (lstrip line) st)
    else
      r <- line_brace_stats line (Fmt.in_block_comment st) ;;
      let '(delta, leading_close, in_block_comment) := r in
      let effective_indent := Z.max (Fmt.indent_level st - leading_close) 0 in
      let formatted := str_mul INDENT effective_indent ++ lstrip line in
      Ok (Fmt.mk (Fmt.out st ++ [formatted])
                 (Z.max (Fmt.indent_level st + delta) 0)
                 (Fmt.in_preset st)
                 in_block_comment).

Fixpoint format_lines (lines : list str) (st : Fmt.state) : result Fmt.state :=
  match lines with
  | [] => Ok st
  | original :: lines' =>
      st' <- format_line st original ;;
      format_lines lines' st'
  end.

Definition format_frag_text (text : str) : result str :=
  let text := normalize_newlines text in
  let lines := split_lines text in
  st <- format_lines lines Fmt.init ;;
  let out := collapse_blank_lines (Fmt.out st) in
  Ok (join_lines out ++ [LF]).

(** * Definitions used to state and prove the properties *)

(** ** Texts written line by line *)

Definition unlines (ls : list string) : str :=
  concat (map (fun l => lit l ++ [LF]) ls).

(** ** The scanner as a recursion on the unread part of the line *)

(** [scan_chars blk q esc s] is what the loop appends to [out], and the flag
    it ends with, when the unread part of the line is [s] and the loop
    variables are [in_block_comment = blk], [in_string = q], [escape = esc]. *)
Fixpoint scan_chars (blk : bool) (q : option ascii) (esc : bool) (s : str)
    : str * bool :=
  match s with
  | [] => ([], blk)
  | ch :: rest =>
      if blk then
        match rest with
        | nx :: rest' =>
            if Ascii.eqb ch STAR && Ascii.eqb nx SLASH
            then scan_chars false q esc rest'
            else scan_chars true q esc rest
        | [] => scan_chars true q esc rest
        end
      else
        match q with
        | Some d =>
            let r :=
              if esc then scan_chars false q false rest
              else if Ascii.eqb ch BACKSLASH then scan_chars false q true rest
              else if Ascii.eqb ch d then scan_chars false None esc rest
              else scan_chars false q esc rest in
            (ch :: fst r, snd r)
        | None =>
            if Ascii.eqb ch SQUOTE || Ascii.eqb ch DQUOTE then
              let r := scan_chars false (Some ch) esc rest in
              (ch :: fst r, snd r)
            else
              match rest with
              | nx :: rest' =>
                  if Ascii.eqb ch SLASH && Ascii.eqb nx SLASH then ([], false)
                  else if Ascii.eqb ch SLASH && Ascii.eqb nx STAR
                  then scan_chars true q esc rest'
                  else
                    let r := scan_chars false q esc rest in
                    (ch :: fst r, snd r)
              | [] =>
                  let r := scan_chars false q esc rest in
                  (ch :: fst r, snd r)
              end
        end
  end.

(** What [strip_comments_for_braces] returns, as a total function. *)
Definition scan_line (line : str) (in_block_comment : bool) : str * bool :=
  scan_chars in_block_comment None false line.

Definition brace_stats (line : str) (in_block_comment : bool) : Z * Z * bool :=
  let '(code, next) := scan_line line in_block_comment in
  ((count_char LBRACE code - count_char RBRACE code)%Z,
   count_leading_close (lstrip code), next).

(** ** The loop of [format_frag_text] as a function of the lines *)

(** What the loop carries from line to line besides [out]. *)
Record mode : Type := Mode {
  level : Z;
  preset : bool;
  block : bool
}.

Definition mode_of (st : Fmt.state) : mode :=
  Mode (Fmt.indent_level st) (Fmt.in_preset st) (Fmt.in_block_comment st).

Definition with_out (out : list str) (m : mode) : Fmt.state :=
  Fmt.mk out (level m) (preset m) (block m).

Definition init_mode : mode := Mode 0 false false.

(** The line emitted for [original] in mode [m], and the mode after it. *)
Definition line_step (m : mode) (original : str) : str * mode :=
  let line := rstrip_space_tab original in
  let stripped := strip line in
  if str_eqb stripped [] then ([], m)
  else if startswith stripped [HASH] then
    (stripped,
     if startswith (lower stripped) (lit "#preset ")
     then Mode (level m) true (block m)
     else if str_eqb (lower stripped) (lit "#endpreset")
     then Mode (level m) false (block m)
     else m)
  else if preset m then (lstrip line, m)
  else
    let '(delta, leading_close, next) := brace_stats line (block m) in
    (str_mul INDENT (Z.max (level m - leading_close) 0) ++ lstrip line,
     Mode (Z.max (level m + delta) 0) (preset m) next).

Fixpoint emit_lines (lines : list str) (m : mode) : list str * mode :=
  match lines with
  | [] => ([], m)
  | original :: lines' =>
      let '(o, m') := line_step m original in
      let '(os, m'') := emit_lines lines' m' in
      (o :: os, m'')
  end.

(** ** [collapse_blank_lines] as a function of the list *)

(** What the [for] loop of [collapse_blank_lines] appends to [out]. *)
Fixpoint squeeze (last_blank : bool) (lines : list str) : list str :=
  match lines with
  | [] => []
  | raw :: lines' =>
      if str_eqb raw [] then
        if last_blank then squeeze true lines' else [] :: squeeze true lines'
      else raw :: squeeze false lines'
  end.

(** The three shapes [collapse_blank_lines] removes. *)
Definition leading_blank (ls : list str) : bool :=
  match ls with
  | l :: _ => str_eqb l []
  | [] => false
  end.

Definition trailing_blank (ls : list str) : bool := leading_blank (rev ls).

Fixpoint double_blank (ls : list str) : bool :=
  match ls with
  | a :: r =>
      (str_eqb a [] && leading_blank r) || double_blank r
  | [] => false
  end.

Definition collapsed (ls : list str) : Prop :=
  leading_blank ls = false /\ trailing_blank ls = false
  /\ double_blank ls = false.

(** ** Lines that the loop leaves as they are *)

(** [stable m ls]: run from mode [m], the loop emits each line of [ls]
    unchanged. *)
Fixpoint stable (m : mode) (ls : list str) : Prop :=
  match ls with
  | [] => True
  | x :: r => fst (line_step m x) = x /\ stable (snd (line_step m x)) r
  end.

(** ** Characters, lines and the text returned *)

Definition not_lf (c : ascii) : Prop := c <> LF.
Definition not_cr (c : ascii) : Prop := c <> CR.

(** A character that is neither a line feed nor a carriage return. *)
Definition inline_char (c : ascii) : Prop := c <> LF /\ c <> CR.

(** The lines joined into the result. *)
Definition output_lines (text : str) : list str :=
  collapse_blank_lines
    (fst (emit_lines (split_lines (normalize_newlines text)) init_mode)).

Definition format_text (text : str) : str :=
  join_lines (output_lines text) ++ [LF].

(** The length of the run of newlines a text starts with, and of the
    longest run of newlines in it: a run of [k + 1] newlines after a line
    is [k] empty lines. *)
Fixpoint newline_run (t : str) : nat :=
  match t with
  | c :: r => if Ascii.eqb c LF then S (newline_run r) else 0
  | [] => 0
  end.

Fixpoint max_newline_run (t : str) : nat :=
  match t with
  | [] => 0
  | _ :: r => Nat.max (newline_run t) (max_newline_run r)
  end.

(** ** Regions of a line *)

(** Where a character of a line lies. *)
Inductive region : Type :=
| Code
| StringLit
| LineComment
| BlockComment.

Definition in_comment (r : region) : bool :=
  match r with
  | LineComment | BlockComment => true
  | Code | StringLit => false
  end.

(** The region of every character of the unread part [s], by the branch of
    the loop that consumes it: the delimiters of a comment or string belong
    to it, and a line comment runs from its [//] to the end of the line. *)
Fixpoint regions (blk : bool) (q : option ascii) (esc : bool) (s : str)
    : list region :=
  match s with
  | [] => []
  | ch :: rest =>
      if blk then
        match rest with
        | nx :: rest' =>
            if Ascii.eqb ch STAR && Ascii.eqb nx SLASH
            then BlockComment :: BlockComment :: regions false q esc rest'
            else BlockComment :: regions true q esc rest
        | [] => BlockComment :: regions true q esc rest
        end
      else
        match q with
        | Some d =>
            StringLit ::
              (if esc then regions false q false rest
               else if Ascii.eqb ch BACKSLASH then regions false q true rest
               else if Ascii.eqb ch d then regions false None esc rest
               else regions false q esc rest)
        | None =>
            if Ascii.eqb ch SQUOTE || Ascii.eqb ch DQUOTE then
              StringLit :: regions false (Some ch) esc rest
            else
              match rest with
              | nx :: rest' =>
                  if Ascii.eqb ch SLASH && Ascii.eqb nx SLASH
                  then map (fun _ => LineComment) s
                  else if Ascii.eqb ch SLASH && Ascii.eqb nx STAR
                  then BlockComment :: BlockComment :: regions true q esc rest'
                  else Code :: regions false q esc rest
              | [] => Code :: regions false q esc rest
              end
        end
  end.

Definition line_regions (line : str) (in_block_comment : bool) : list region :=
  regions in_block_comment None false line.

(** The characters of [s] that a predicate on regions selects. *)
Fixpoint select (keep : region -> bool) (s : str) (rs : list region) : str :=
  match s, rs with
  | c :: s', r :: rs' =>
      if keep r then c :: select keep s' rs' else select keep s' rs'
  | _, _ => []
  end.

Definition outside_comments (line : str) (in_block_comment : bool) : str :=
  select (fun r => negb (in_comment r)) line
         (line_regions line in_block_comment).


(** ** Lines and blocks of the examples *)



(** ** Preset blocks *)

(** What is emitted for a line that is not a directive while [in_preset]
    is set: [line.lstrip()] of the line after [rstrip(" \t")]. *)
Definition preset_line (original : str) : str :=
  lstrip (rstrip_space_tab original).

Definition not_directive (original : str) : Prop :=
  startswith (strip (rstrip_space_tab original)) [HASH] = false.

(** ** Texts compared line by line *)

Definition nonblank (l : str) : bool := negb (str_eqb l []).

(** The lines of a text that hold more than whitespace, each without the
    whitespace around it. *)
Definition nonblank_contents (text : str) : list str :=
  filter nonblank (map strip (split_lines (normalize_newlines text))).

(** [text.replace("\n", "\r\n")] and [text.replace("\n", "\r")]: a text
    with Unix line ends written with Windows and with old Mac ones. *)
Definition to_crlf (text : str) : str :=
  flat_map (fun c => if Ascii.eqb c LF then [CR; LF] else [c]) text.

Definition to_cr (text : str) : str :=
  map (fun c => if Ascii.eqb c LF then CR else c) text.

(** [code] is [line] with some characters left out. *)
Fixpoint subseq (code line : str) : bool :=
  match code, line with
  | [], _ => true
  | _ :: _, [] => false
  | c :: code', d :: line' =>
      if Ascii.eqb c d then subseq code' line' else subseq code line'
  end.


(** ** [format_file] and [main] of [beautify_fragments.py] *)

(** Files: a store gives, for a path, the text [read_text] returns for it,
    or nothing when [read_text] raises; [write_text] replaces the text at
    one path.  An exception ends a call. *)
Definition path := str.

Definition store := path -> option str.

Definition write_text (st : store) (p : path) (text : str) : store :=
  fun q => if str_eqb q p then Some text else st q.

Inductive exn : Type :=
| ReadError (p : path)
| ValueError
| RuntimeError
| ScanError.

Inductive outcome (A : Type) : Type :=
| Returns (a : A)
| Raises (e : exn).

Arguments Returns {A} a.
Arguments Raises {A} e.

(** [format_file(path, write)]: the flag returned and the store after the
    call. *)
Definition format_file (st : store) (p : path) (write : bool)
    : outcome (bool * store) :=
  match st p with
  | None => Raises (ReadError p)
  | Some original =>
      match format_frag_text original with
      | Ok formatted =>
          let changed :=
            negb (str_eqb formatted (normalize_newlines original)) in
          Returns (changed,
                   if changed && write then write_text st p formatted else st)
      | _ => Raises ScanError
      end
  end.

(** The [for path in files] loop of [main]: [changed_files] and the store
    after it. *)
Fixpoint format_files (files : list path) (write : bool)
    (changed_files : list path) (st : store)
    : outcome (list path * store) :=
  match files with
  | [] => Returns (changed_files, st)
  | p :: files' =>
      match format_file st p write with
      | Returns (changed, st') =>
          format_files files' write
            (if changed then changed_files ++ [p] else changed_files) st'
      | Raises e => Raises e
      end
  end.

(** [main], from the parsed arguments [args.write] and [args.check] and the
    list [collect_frag_files] returned; what it prints is left out.  The
    exit code and the store after the run. *)
Definition main (write check : bool) (files : list path) (st : store)
    : outcome (Z * store) :=
  if write && check then Raises ValueError
  else
    match files with
    | [] => Raises RuntimeError
    | _ =>
        match format_files files write [] st with
        | Returns (changed_files, st') =>
            Returns (match check, changed_files with
                     | true, _ :: _ => 1%Z
                     | _, _ => 0%Z
                     end, st')
        | Raises e => Raises e
        end
    end.

(** The file at [p] can be read and formatting would not change it. *)
Definition is_formatted (st : store) (p : path) : Prop :=
  exists text,
    st p = Some text
    /\ format_frag_text text = Ok (normalize_newlines text).

(** A store with [x.frag], which needs indenting, and formatted text at
    every other path. *)
Definition two_files : store :=
  fun q => if str_eqb q (lit "x.frag")
           then Some (unlines ["a {"; "b"]%string)
           else Some (unlines ["c"]%string).

(** ** [start_server.py] *)

(** [str(n)] for a Python integer. *)
Definition str_of_int (n : Z) : str :=
  lit (DecimalString.NilEmpty.string_of_int (Z.to_int n)).

Module StartServer.

(** The fields of the parsed arguments that [build_command] reads;
    [port] is [None] or an integer. *)
Record args : Type := Args {
  host : str;
  port : option Z;
  open : bool;
  strict_port : bool
}.

Definition build_command (a : args) : list str :=
  let command :=
    [lit "npm"; lit "run"; lit "dev"; lit "--"; lit "--host"; host a] in
  let command :=
    match port a with
    | Some p => command ++ [lit "--port"; str_of_int p]
    | None => command
    end in
  let command := if open a then command ++ [lit "--open"] else command in
  let command :=
    if strict_port a then command ++ [lit "--strictPort"] else command in
  command.

End StartServer.

(** ** [port_fragmentarium_3d.py] *)

Module Port.

(** A [dict] as the list of its assignments, the latest first. *)
Definition dict := list (str * str).

Fixpoint dict_get (key : str) (m : dict) : option str :=
  match m with
  | [] => None
  | (k, v) :: m' => if str_eqb key k then Some v else dict_get key m'
  end.

Definition dict_set (key value : str) (m : dict) : dict := (key, value) :: m.

(** [collect_include_name_map], from the names of the files that
    [include_dir.glob("*.frag")] yields, in that order. *)
Definition collect_include_name_map (names : list str) : dict :=
  fold_left (fun mapping name => dict_set (lower name) name mapping) names [].

Definition normalize_include_name (include_name : str)
    (include_name_map : dict) : str :=
  match dict_get (lower include_name) include_name_map with
  | Some canonical => canonical
  | None => include_name
  end.

(** The tests of the loop body of [find_header_insert_index]: the line is
    skipped. *)
Definition header_line (line : str) : bool :=
  let stripped := strip line in
  str_eqb stripped []
  || startswith stripped (lit "//")
  || (startswith stripped (lit "/*") || startswith stripped (lit "*"))
  || startswith (lower stripped) (lit "#info")
  || startswith (lower stripped) (lit "#define").

(** [while idx < len(lines)], at most [fuel] passes. *)
Fixpoint header_loop (fuel : nat) (lines : list str) (idx : nat)
    : result nat :=
  if idx <? length lines then
    match fuel with
    | O => OutOfFuel
    | S fuel' =>
        match nth_error lines idx with
        | None => IndexError
        | Some line =>
            if header_line line then header_loop fuel' lines (idx + 1)
            else Ok idx
        end
    end
  else Ok idx.

(** Every pass moves [idx] forward: [len(lines)] passes are enough. *)
Definition find_header_insert_index (lines : list str) : result nat :=
  header_loop (length lines) lines 0.

(** [s.split(sep)] for a one-character separator and ["sep".join(parts)]. *)
Fixpoint split_char (sep : ascii) (s : str) : list str :=
  match s with
  | [] => [[]]
  | c :: s' =>
      if Ascii.eqb c sep then [] :: split_char sep s'
      else match split_char sep s' with
           | l :: ls => (c :: l) :: ls
           | [] => [[c]]
           end
  end.

Fixpoint join_char (sep : ascii) (parts : list str) : str :=
  match parts with
  | [] => []
  | [l] => l
  | l :: ls => l ++ sep :: join_char sep ls
  end.

Definition DASH : ascii := "-"%char.

(** A character of the class [a-z0-9]. *)
Definition lower_alnum (c : ascii) : bool :=
  let n := nat_of_ascii c in
  ((97 <=? n) && (n <=? 122)) || ((48 <=? n) && (n <=? 57)).

(** [re.sub(r"[^a-z0-9]+", "-", s)]: every maximal run of characters
    outside the class becomes one dash; [in_run] says that the run the
    next character would belong to has its dash already. *)
Fixpoint sub_runs (in_run : bool) (s : str) : str :=
  match s with
  | [] => []
  | c :: s' =>
      if lower_alnum c then c :: sub_runs false s'
      else if in_run then sub_runs true s'
      else DASH :: sub_runs true s'
  end.

Definition is_dash (c : ascii) : bool := Ascii.eqb c DASH.

(** [s.strip("-")]. *)
Definition strip_dash (s : str) : str :=
  rstrip_by is_dash (drop_while is_dash s).

(** The body of the [for seg in segments] loop. *)
Definition slug_of (seg : str) : str :=
  let slug := strip_dash (sub_runs false (lower seg)) in
  if str_eqb slug [] then lit "item" else slug.

Definition mem (x : str) (used_ids : list str) : bool :=
  existsb (str_eqb x) used_ids.

(** [while True] of [make_system_id], at most [fuel] passes. *)
Fixpoint suffix_loop (fuel : nat) (base : str) (suffix : Z)
    (used_ids : list str) : result (str * list str) :=
  match fuel with
  | O => OutOfFuel
  | S fuel' =>
      let candidate := base ++ lit "-" ++ str_of_int suffix in
      if mem candidate used_ids
      then suffix_loop fuel' base (suffix + 1) used_ids
      else Ok (candidate, candidate :: used_ids)
  end.

Definition system_base (relative_no_ext : str) : str :=
  let segments :=
    filter (fun seg => negb (str_eqb seg []))
           (split_char "/"%char relative_no_ext) in
  let normalized := map slug_of segments in
  lit "fragmentarium/" ++ join_char "/"%char normalized.

(** [make_system_id]: the identifier returned and [used_ids] after the
    call, a set kept as the list of its members.  One more pass than
    [used_ids] has members is enough for the loop. *)
Definition make_system_id_fuel (fuel : nat) (relative_no_ext : str)
    (used_ids : list str) : result (str * list str) :=
  let base := system_base relative_no_ext in
  if negb (mem base used_ids) then Ok (base, base :: used_ids)
  else suffix_loop fuel base 2 used_ids.

Definition make_system_id (relative_no_ext : str) (used_ids : list str)
    : result (str * list str) :=
  make_system_id_fuel (S (length used_ids)) relative_no_ext used_ids.

(** A character an identifier is made of. *)
Definition id_char (c : ascii) : bool :=
  lower_alnum c || is_dash c || Ascii.eqb c "/"%char.

(** Two dashes in a row. *)
Fixpoint double_dash (s : str) : bool :=
  match s with
  | c :: s' =>
      (is_dash c && match s' with d :: _ => is_dash d | [] => false end)
      || double_dash s'
  | [] => false
  end.

(** A character a slug is made of. *)
Definition slug_char (c : ascii) : bool := lower_alnum c || is_dash c.

(** The candidate the loop of [make_system_id] tries for [suffix]. *)
Definition candidate_of (base : str) (suffix : Z) : str :=
  base ++ lit "-" ++ str_of_int suffix.

End Port.

(** ** Lines of a run *)



(** Not the [#endpreset] directive. *)
Definition not_endpreset (original : str) : Prop :=
  lower (strip (rstrip_space_tab original)) <> lit "#endpreset".

(** What is emitted for a line while [in_preset] is set: a directive
    stripped, any other line as [preset_line] gives it. *)
Definition block_line (original : str) : str :=
  if startswith (strip (rstrip_space_tab original)) [HASH]
  then strip (rstrip_space_tab original)
  else preset_line original.

(** A segment has a letter or a digit once in lower case. *)
Definition has_alnum (seg : str) : bool :=
  existsb Port.lower_alnum (lower seg).

(** * The scanner's loop computes [scan_chars] *)

Section ScanLoop.

Lemma index_app_here (pre : str) (ch : ascii) (rest : str) :
  index (pre ++ ch :: rest) (length pre) = Ok ch.
Proof.
  unfold index. rewrite nth_error_app2 by lia.
  rewrite Nat.sub_diag. reflexivity.
Qed.

Lemma index_app_next (pre : str) (ch nx : ascii) (rest : str) :
  index (pre ++ ch :: nx :: rest) (length pre + 1) = Ok nx.
Proof.
  unfold index. rewrite nth_error_app2 by lia.
  replace (length pre + 1 - length pre) with 1 by lia. reflexivity.
Qed.

Lemma snoc_app (pre : str) (ch : ascii) (rest : str) :
  pre ++ ch :: rest = (pre ++ [ch]) ++ rest.
Proof. rewrite <- app_assoc. reflexivity. Qed.

Lemma snoc2_app (pre : str) (ch nx : ascii) (rest : str) :
  pre ++ ch :: nx :: rest = (pre ++ [ch; nx]) ++ rest.
Proof. rewrite <- app_assoc. reflexivity. Qed.

Lemma length_snoc (pre : str) (ch : ascii) :
  length (pre ++ [ch]) = length pre + 1.
Proof. rewrite length_app. reflexivity. Qed.

Lemma length_snoc2 (pre : str) (ch nx : ascii) :
  length (pre ++ [ch; nx]) = length pre + 2.
Proof. rewrite length_app. reflexivity. Qed.

(** The loop, started anywhere in the line with enough fuel for what is
    left, ends normally and has appended what [scan_chars] says. *)
Ltac scan_close st H1 H2 H3 :=
  exists st; split;
  [ exact H1
  | split;
    [ etransitivity; [exact H2 | rewrite <- app_assoc; reflexivity]
    | exact H3 ] ].

Ltac scan_unfold :=
  cbv [Scan.advance Scan.append Scan.set_escape Scan.set_string
       Scan.set_block Scan.i Scan.out Scan.in_block_comment Scan.in_string
       Scan.escape].

Lemma while_scan_chars (fuel : nat) :
  forall (suf pre o : str) (blk : bool) (q : option ascii) (esc : bool),
    length suf <= fuel ->
    exists st,
      Scan.while fuel (pre ++ suf) (Scan.mk (length pre) o blk q esc) = Ok st
      /\ Scan.out st = o ++ fst (scan_chars blk q esc suf)
      /\ Scan.in_block_comment st = snd (scan_chars blk q esc suf).
Proof.
  induction fuel as [fuel IH] using lt_wf_ind.
  intros suf pre o blk q esc Hlen.
  destruct suf as [|ch rest].
  - exists (Scan.mk (length pre) o blk q esc).
    rewrite app_nil_r. destruct fuel; simpl; rewrite Nat.ltb_irrefl;
      rewrite app_nil_r; auto.
  - destruct fuel as [|fuel']; [simpl in Hlen; lia|].
    assert (Hlt : (length pre <? length (pre ++ ch :: rest)) = true)
      by (apply Nat.ltb_lt; rewrite length_app; simpl; lia).
    cbn [Scan.while Scan.i]. rewrite Hlt.
    unfold Scan.body. cbn [Scan.i]. rewrite index_app_here. cbn [bind].
    assert (step1 : forall o' blk' q' esc',
      exists st,
        Scan.while fuel' (pre ++ ch :: rest)
          (Scan.mk (length pre + 1) o' blk' q' esc') = Ok st
        /\ Scan.out st = o' ++ fst (scan_chars blk' q' esc' rest)
        /\ Scan.in_block_comment st = snd (scan_chars blk' q' esc' rest)).
    { intros. rewrite snoc_app, <- length_snoc with (ch := ch).
      apply IH; [lia | simpl in Hlen; lia]. }
    assert (step2 : forall nx rest' o' blk' q' esc',
      rest = nx :: rest' ->
      exists st,
        Scan.while fuel' (pre ++ ch :: rest)
          (Scan.mk (length pre + 2) o' blk' q' esc') = Ok st
        /\ Scan.out st = o' ++ fst (scan_chars blk' q' esc' rest')
        /\ Scan.in_block_comment st = snd (scan_chars blk' q' esc' rest')).
    { intros nx rest' o' blk' q' esc' ->.
      rewrite snoc2_app, <- length_snoc2 with (ch := ch) (nx := nx).
      apply IH; [lia | simpl in Hlen; lia]. }
    assert (Hnxt :
      (if length pre + 1 <? length (pre ++ ch :: rest)
       then d <- index (pre ++ ch :: rest) (length pre + 1) ;; Ok (Some d)
       else Ok None) = Ok (hd_error rest)).
    { destruct rest as [|nx rest'].
      - replace (length pre + 1 <? length (pre ++ [ch])) with false; auto.
        symmetry. apply Nat.ltb_ge. rewrite length_app. simpl. lia.
      - replace (length pre + 1 <? length (pre ++ ch :: nx :: rest'))
          with true.
        + rewrite index_app_next. reflexivity.
        + symmetry. apply Nat.ltb_lt. rewrite length_app. simpl. lia. }
    rewrite Hnxt. clear Hnxt Hlt IH. cbn [bind].
    cbn [Scan.in_block_comment Scan.in_string].
    destruct blk.
    + (* inside a block comment *)
      destruct rest as [|nx rest']; cbn [hd_error Scan.nxt_is scan_chars].
      * rewrite andb_false_r. cbn [bind]. apply step1.
      * destruct (Ascii.eqb ch STAR && Ascii.eqb nx SLASH); cbn [bind].
        -- apply (step2 nx rest'). reflexivity.
        -- apply step1.
    + destruct q as [d|].
      * (* inside a string *)
        cbn [scan_chars]; scan_unfold.
        destruct esc; [|destruct (Ascii.eqb ch BACKSLASH);
                        [|destruct (Ascii.eqb ch d)]];
          cbn [bind fst snd]; scan_unfold;
          match goal with
          | |- context [Scan.while _ _ (Scan.mk _ ?o' ?b' ?q' ?e')] =>
              destruct (step1 o' b' q' e') as (st & H1 & H2 & H3)
          end;
          scan_close st H1 H2 H3.
      * (* plain code *)
        assert (Hplain :
          exists st,
            Scan.while fuel' (pre ++ ch :: rest)
              (Scan.advance 1 (Scan.append ch
                 (Scan.mk (length pre) o false None esc))) = Ok st
            /\ Scan.out st
               = o ++ ch :: fst (scan_chars false None esc rest)
            /\ Scan.in_block_comment st
               = snd (scan_chars false None esc rest)).
        { scan_unfold.
          destruct (step1 (o ++ [ch]) false (@None ascii) esc)
            as (st & H1 & H2 & H3).
          scan_close st H1 H2 H3. }
        cbn [scan_chars].
        destruct (Ascii.eqb ch SQUOTE || Ascii.eqb ch DQUOTE).
        -- cbn [bind fst snd]; scan_unfold.
           destruct (step1 (o ++ [ch]) false (Some ch) esc)
             as (st & H1 & H2 & H3).
           scan_close st H1 H2 H3.
        -- destruct rest as [|nx rest']; cbn [hd_error Scan.nxt_is].
           ++ rewrite !andb_false_r. cbn [bind fst snd]. apply Hplain.
           ++ destruct (Ascii.eqb ch SLASH && Ascii.eqb nx SLASH).
              { cbn [bind fst snd]. eexists; split; [reflexivity|].
                cbn. rewrite app_nil_r. auto. }
              destruct (Ascii.eqb ch SLASH && Ascii.eqb nx STAR).
              { cbn [bind]. apply (step2 nx rest'). reflexivity. }
              cbn [bind fst snd]. apply Hplain.
Qed.

(** Any fuel from [len(line)] on gives the same, normal, outcome. *)
Lemma scan_while_fuel (fuel : nat) (line : str) (b : bool) :
  length line <= fuel ->
  strip_comments_for_braces_fuel fuel line b = Ok (scan_line line b).
Proof.
  intros Hf. unfold strip_comments_for_braces_fuel, Scan.init, scan_line.
  destruct (while_scan_chars fuel line [] [] b None false Hf)
    as (st & H1 & H2 & H3).
  simpl in H1. rewrite H1. cbn [bind]. rewrite H2, H3.
  destruct (scan_chars b None false line); reflexivity.
Qed.

Lemma strip_comments_for_braces_ok (line : str) (b : bool) :
  strip_comments_for_braces line b = Ok (scan_line line b).
Proof. apply scan_while_fuel. lia. Qed.

Lemma line_brace_stats_ok (line : str) (b : bool) :
  line_brace_stats line b = Ok (brace_stats line b).
Proof.
  unfold line_brace_stats, brace_stats.
  rewrite strip_comments_for_braces_ok. cbn [bind].
  destruct (scan_line line b). reflexivity.
Qed.

End ScanLoop.

(** * Facts about the string primitives *)

Section Strings.

Variable p : ascii -> bool.

Lemma drop_while_app_all (ws s : str) :
  forallb p ws = true -> drop_while p (ws ++ s) = drop_while p s.
Proof.
  induction ws as [|c ws IH]; simpl; auto.
  destruct (p c); simpl; auto. discriminate.
Qed.

Lemma drop_while_split (s : str) :
  exists ws, s = ws ++ drop_while p s /\ forallb p ws = true.
Proof.
  induction s as [|c s (ws & E & A)]; simpl.
  - exists []. auto.
  - destruct (p c) eqn:Hc.
    + exists (c :: ws). simpl. rewrite Hc, A. split; [f_equal; exact E | reflexivity].
    + exists []. auto.
Qed.

Lemma drop_while_head (s : str) :
  match drop_while p s with
  | [] => True
  | c :: _ => p c = false
  end.
Proof.
  induction s as [|c s IH]; simpl; auto.
  destruct (p c) eqn:Hc; simpl; auto.
Qed.

Lemma drop_while_fix (s : str) :
  match s with [] => True | c :: _ => p c = false end ->
  drop_while p s = s.
Proof. destruct s as [|c s]; simpl; auto. intros ->. reflexivity. Qed.

Lemma drop_while_idem (s : str) :
  drop_while p (drop_while p s) = drop_while p s.
Proof. apply drop_while_fix, drop_while_head. Qed.

Lemma drop_while_nil_all (s : str) :
  drop_while p s = [] -> forallb p s = true.
Proof.
  induction s as [|c s IH]; simpl; auto.
  destruct (p c); simpl; auto. discriminate.
Qed.

Lemma drop_while_all (s : str) :
  forallb p s = true -> drop_while p s = [].
Proof.
  intros H. rewrite <- (app_nil_r s). rewrite drop_while_app_all; auto.
Qed.

Lemma drop_while_incl (s : str) : incl (drop_while p s) s.
Proof.
  destruct (drop_while_split s) as (ws & E & _).
  intros c Hc. rewrite E. apply in_or_app. auto.
Qed.

(** [rstrip_by] leaves a string that ends in a kept character alone. *)
Lemma rstrip_by_snoc_keep (s : str) (c : ascii) :
  p c = false -> rstrip_by p (s ++ [c]) = s ++ [c].
Proof.
  intros Hc. unfold rstrip_by. rewrite rev_app_distr. simpl.
  rewrite Hc. simpl. rewrite rev_involutive. reflexivity.
Qed.

Lemma rstrip_by_snoc_drop (s : str) (c : ascii) :
  p c = true -> rstrip_by p (s ++ [c]) = rstrip_by p s.
Proof.
  intros Hc. unfold rstrip_by. rewrite rev_app_distr. simpl.
  rewrite Hc. reflexivity.
Qed.

(** The result of [rstrip_by] is empty or ends in a kept character. *)
Lemma rstrip_by_shape (s : str) :
  rstrip_by p s = []
  \/ exists s' c, rstrip_by p s = s' ++ [c] /\ p c = false.
Proof.
  unfold rstrip_by. pose proof (drop_while_head (rev s)) as H.
  destruct (drop_while p (rev s)) as [|c r]; simpl; auto.
  right. exists (rev r), c. auto.
Qed.

Lemma rstrip_by_idem (s : str) :
  rstrip_by p (rstrip_by p s) = rstrip_by p s.
Proof.
  destruct (rstrip_by_shape s) as [E | (s' & c & E & Hc)]; rewrite E.
  - reflexivity.
  - apply rstrip_by_snoc_keep, Hc.
Qed.

Lemma rstrip_by_split (s : str) :
  exists ws, s = rstrip_by p s ++ ws /\ forallb p ws = true.
Proof.
  unfold rstrip_by.
  destruct (drop_while_split (rev s)) as (ws & E & A).
  exists (rev ws). split.
  - rewrite <- rev_app_distr, <- E, rev_involutive. reflexivity.
  - rewrite forallb_forall in *. intros c Hc. apply A, in_rev, Hc.
Qed.

Lemma rstrip_by_incl (s : str) : incl (rstrip_by p s) s.
Proof.
  destruct (rstrip_by_split s) as (ws & E & _).
  intros c Hc. rewrite E. apply in_or_app. auto.
Qed.

Lemma rstrip_by_all (s : str) :
  forallb p s = true -> rstrip_by p s = [].
Proof.
  intros H. unfold rstrip_by. rewrite drop_while_all; auto.
  rewrite forallb_forall in *. intros c Hc. apply H, in_rev, Hc.
Qed.

(** A kept character anywhere protects everything before it. *)
Lemma rstrip_by_app_keep (a b : str) :
  rstrip_by p b <> [] -> rstrip_by p (a ++ b) = a ++ rstrip_by p b.
Proof.
  intros Hb. destruct (rstrip_by_split b) as (ws & E & A).
  destruct (rstrip_by_shape b) as [E0 | (s' & c & E1 & Hc)]; [contradiction|].
  rewrite E at 1. rewrite E1 in *.
  clear E Hb E1. induction ws as [|w ws IH] using rev_ind.
  - rewrite app_nil_r, app_assoc. apply rstrip_by_snoc_keep, Hc.
  - rewrite forallb_app in A. simpl in A.
    apply andb_prop in A as [A1 A2].
    rewrite !app_assoc. rewrite rstrip_by_snoc_drop.
    + rewrite <- !app_assoc. rewrite <- app_assoc in IH. apply IH, A1.
    + destruct (p w); auto.
Qed.

Lemma rstrip_by_app_all (a ws : str) :
  forallb p ws = true -> rstrip_by p (a ++ ws) = rstrip_by p a.
Proof.
  induction ws as [|w ws IH] using rev_ind; intros A.
  - rewrite app_nil_r. reflexivity.
  - rewrite forallb_app in A. simpl in A. apply andb_prop in A as [A1 A2].
    rewrite app_assoc, rstrip_by_snoc_drop; auto.
    destruct (p w); auto.
Qed.

(** Stripping on the left and on the right commute. *)
Lemma drop_while_rstrip_by (s : str) :
  drop_while p (rstrip_by p s) = rstrip_by p (drop_while p s).
Proof.
  destruct (drop_while_split s) as (ws & E & A).
  destruct (drop_while p s) as [|c r] eqn:D.
  - rewrite app_nil_r in E. subst ws.
    rewrite rstrip_by_all by exact A. reflexivity.
  - pose proof (drop_while_head s) as H. rewrite D in H.
    destruct (rstrip_by_shape (c :: r)) as [E0 | (s' & d & E1 & Hd)].
    + destruct (rstrip_by_split (c :: r)) as (t & Et & At).
      rewrite E0 in Et. simpl in Et. subst t. simpl in At.
      rewrite H in At. discriminate.
    + rewrite E at 1. rewrite rstrip_by_app_keep by (rewrite E1; destruct s'; discriminate).
      rewrite drop_while_app_all by exact A.
      apply drop_while_fix.
      destruct (rstrip_by_split (c :: r)) as (t & Et & At).
      destruct (rstrip_by p (c :: r)) as [|c' r'].
      * destruct s'; discriminate.
      * simpl in Et. injection Et as -> _. exact H.
Qed.

End Strings.

Lemma space_tab_isspace (c : ascii) :
  is_space_or_tab c = true -> isspace c = true.
Proof.
  unfold is_space_or_tab. intros H. apply orb_prop in H as [H | H];
    apply Ascii.eqb_eq in H; subst c; reflexivity.
Qed.

Lemma strip_idem (s : str) : strip (strip s) = strip s.
Proof.
  unfold strip, lstrip, rstrip.
  rewrite drop_while_rstrip_by, drop_while_idem, rstrip_by_idem. reflexivity.
Qed.

Lemma lstrip_strip (s : str) : lstrip (strip s) = strip s.
Proof.
  unfold strip, lstrip, rstrip.
  rewrite drop_while_rstrip_by, drop_while_idem. reflexivity.
Qed.

Lemma strip_lstrip (s : str) : strip (lstrip s) = strip s.
Proof. unfold strip, lstrip. rewrite drop_while_idem. reflexivity. Qed.

Lemma strip_app_space (ws s : str) :
  forallb isspace ws = true -> strip (ws ++ s) = strip s.
Proof. intros H. unfold strip, lstrip. rewrite drop_while_app_all; auto. Qed.

(** A string that ends in a non-blank character keeps its end under
    [rstrip(" \t")]. *)
Lemma rstrip_space_tab_strip (s : str) : rstrip_space_tab (strip s) = strip s.
Proof.
  unfold strip, rstrip.
  destruct (rstrip_by_shape isspace (lstrip s)) as [E | (s' & c & E & Hc)];
    rewrite E; [reflexivity|].
  apply rstrip_by_snoc_keep.
  destruct (is_space_or_tab c) eqn:H; auto.
  apply space_tab_isspace in H. congruence.
Qed.

(** A line with a non-blank character: what is left of it after
    [rstrip(" \t")] and [lstrip()] is not empty and is stable under both. *)
Lemma nonblank_lstrip (line : str) : strip line <> [] -> lstrip line <> [].
Proof. intros H E. apply H. unfold strip. rewrite E. reflexivity. Qed.

Lemma rstrip_space_tab_suffix (a b : str) :
  rstrip_space_tab (a ++ b) = a ++ b -> b <> [] -> rstrip_space_tab b = b.
Proof.
  intros H Hb. unfold rstrip_space_tab in *.
  destruct (rstrip_by_shape is_space_or_tab (a ++ b)) as [E | (s' & c & E & Hc)].
  - rewrite H in E. destruct a, b; simpl in E; congruence.
  - rewrite H in E.
    destruct (exists_last Hb) as (b' & d & ->).
    rewrite app_assoc in E. apply app_inj_tail in E as [_ ->].
    apply rstrip_by_snoc_keep, Hc.
Qed.

Lemma rstrip_space_tab_lstrip (l : str) :
  strip (rstrip_space_tab l) <> [] ->
  rstrip_space_tab (lstrip (rstrip_space_tab l)) = lstrip (rstrip_space_tab l).
Proof.
  intros H. apply nonblank_lstrip in H.
  destruct (drop_while_split isspace (rstrip_space_tab l)) as (ws & E & _).
  apply (rstrip_space_tab_suffix ws); auto.
  fold (lstrip (rstrip_space_tab l)) in E.
  rewrite <- E. apply rstrip_by_idem.
Qed.

Lemma rstrip_space_tab_indent (ind b : str) :
  rstrip_space_tab b = b -> b <> [] -> rstrip_space_tab (ind ++ b) = ind ++ b.
Proof.
  intros H Hb. unfold rstrip_space_tab in *.
  rewrite rstrip_by_app_keep; rewrite H; auto.
Qed.

Lemma repeat_str_space (k : nat) : forallb isspace (repeat_str INDENT k) = true.
Proof. induction k; simpl; auto. Qed.

Lemma str_eqb_eq (a b : str) : str_eqb a b = true <-> a = b.
Proof. unfold str_eqb. destruct (list_eq_dec ascii_dec a b); split; congruence. Qed.

Lemma str_eqb_neq (a b : str) : str_eqb a b = false <-> a <> b.
Proof. unfold str_eqb. destruct (list_eq_dec ascii_dec a b); split; congruence. Qed.

Lemma str_eqb_refl (a : str) : str_eqb a a = true.
Proof. apply str_eqb_eq. reflexivity. Qed.

(** * Leading whitespace and the scanner *)

Lemma isspace_plain (c : ascii) :
  isspace c = true ->
  Ascii.eqb c STAR = false /\ Ascii.eqb c SLASH = false
  /\ Ascii.eqb c SQUOTE = false /\ Ascii.eqb c DQUOTE = false
  /\ Ascii.eqb c LBRACE = false /\ Ascii.eqb c RBRACE = false
  /\ Ascii.eqb c HASH = false.
Proof.
  destruct c as [[] [] [] [] [] [] [] []]; vm_compute; intros H;
    try discriminate H; repeat split.
Qed.

Lemma scan_chars_space (c : ascii) (s : str) (b : bool) :
  isspace c = true ->
  scan_chars b None false (c :: s)
  = if b then scan_chars true None false s
    else (c :: fst (scan_chars false None false s),
          snd (scan_chars false None false s)).
Proof.
  intros H. apply isspace_plain in H as (H1 & H2 & H3 & H4 & _).
  destruct b; cbn [scan_chars].
  - rewrite H1. destruct s; reflexivity.
  - rewrite H3, H4, H2. destruct s; reflexivity.
Qed.

(** The brace statistics of a line do not depend on its leading
    whitespace. *)
Lemma brace_stats_space (ws s : str) (b : bool) :
  forallb isspace ws = true -> brace_stats (ws ++ s) b = brace_stats s b.
Proof.
  induction ws as [|c ws IH]; simpl; auto.
  intros H. apply andb_prop in H as [Hc Hws].
  rewrite <- IH by exact Hws.
  unfold brace_stats, scan_line. rewrite scan_chars_space by exact Hc.
  destruct b; [reflexivity|].
  destruct (scan_chars false None false (ws ++ s)) as [code next].
  apply isspace_plain in Hc as Hp. destruct Hp as (_ & _ & _ & _ & H5 & H6 & _).
  cbn [fst snd count_char]. rewrite H5, H6.
  unfold lstrip. cbn [drop_while]. rewrite Hc. reflexivity.
Qed.

Lemma brace_stats_lstrip (line : str) (b : bool) :
  brace_stats (lstrip line) b = brace_stats line b.
Proof.
  destruct (drop_while_split isspace line) as (ws & E & A).
  rewrite E at 2. symmetry. apply brace_stats_space, A.
Qed.

(** * The loop of [format_frag_text] computes [emit_lines] *)

Lemma mode_of_with_out (out : list str) (m : mode) :
  mode_of (with_out out m) = m.
Proof. destruct m; reflexivity. Qed.

Lemma format_line_ok (st : Fmt.state) (original : str) :
  format_line st original
  = Ok (with_out (Fmt.out st ++ [fst (line_step (mode_of st) original)])
                 (snd (line_step (mode_of st) original))).
Proof.
  unfold format_line, line_step.
  destruct st as [out lvl pre blk]. cbn [mode_of Fmt.out Fmt.indent_level
    Fmt.in_preset Fmt.in_block_comment level preset block].
  destruct (str_eqb (strip (rstrip_space_tab original)) []); [reflexivity|].
  destruct (startswith (strip (rstrip_space_tab original)) [HASH]).
  { destruct (startswith _ (lit "#preset ")); [reflexivity|].
    destruct (str_eqb _ (lit "#endpreset")); reflexivity. }
  destruct pre; [reflexivity|].
  rewrite line_brace_stats_ok. cbn [bind].
  destruct (brace_stats (rstrip_space_tab original) blk) as [[delta lc] next].
  reflexivity.
Qed.

Lemma format_lines_ok (lines : list str) :
  forall st,
    format_lines lines st
    = Ok (with_out (Fmt.out st ++ fst (emit_lines lines (mode_of st)))
                   (snd (emit_lines lines (mode_of st)))).
Proof.
  induction lines as [|l lines IH]; intros st.
  - simpl. rewrite app_nil_r. destruct st; reflexivity.
  - cbn [format_lines emit_lines]. rewrite format_line_ok. cbn [bind].
    rewrite IH, mode_of_with_out.
    destruct (line_step (mode_of st) l) as [o m'].
    cbn [fst snd with_out Fmt.out].
    destruct (emit_lines lines m') as [os m'']. cbn [fst snd].
    rewrite <- app_assoc. reflexivity.
Qed.

(** * What [collapse_blank_lines] returns *)

Section Collapse.

Lemma collapse_loop_squeeze (lines : list str) :
  forall out lb, collapse_loop lines out lb = out ++ squeeze lb lines.
Proof.
  induction lines as [|raw lines IH]; intros out lb; simpl.
  - rewrite app_nil_r. reflexivity.
  - destruct (str_eqb raw []); [destruct lb|]; rewrite IH;
      rewrite <- ?app_assoc; reflexivity.
Qed.

Lemma pop_snoc_blank (ls : list str) :
  pop_trailing_blank (ls ++ [[]]) = pop_trailing_blank ls.
Proof. unfold pop_trailing_blank. rewrite rev_app_distr. reflexivity. Qed.

Lemma pop_snoc_keep (ls : list str) (x : str) :
  x <> [] -> pop_trailing_blank (ls ++ [x]) = ls ++ [x].
Proof.
  intros H. unfold pop_trailing_blank. rewrite rev_app_distr. simpl.
  apply str_eqb_neq in H. rewrite H. simpl. rewrite rev_involutive.
  reflexivity.
Qed.

Lemma pop_split (ls : list str) :
  exists t, ls = pop_trailing_blank ls ++ t.
Proof.
  induction ls as [|x ls IH] using rev_ind.
  - exists []. reflexivity.
  - destruct (list_eq_dec ascii_dec x []) as [-> | Hx].
    + rewrite pop_snoc_blank. destruct IH as (t & E).
      exists (t ++ [[]]). rewrite app_assoc, <- E. reflexivity.
    + rewrite pop_snoc_keep by exact Hx. exists []. rewrite app_nil_r.
      reflexivity.
Qed.

Lemma trailing_blank_snoc (ls : list str) (x : str) :
  trailing_blank (ls ++ [x]) = str_eqb x [].
Proof. unfold trailing_blank. rewrite rev_app_distr. reflexivity. Qed.

Lemma pop_no_trailing (ls : list str) :
  trailing_blank (pop_trailing_blank ls) = false.
Proof.
  induction ls as [|x ls IH] using rev_ind.
  - reflexivity.
  - destruct (list_eq_dec ascii_dec x []) as [-> | Hx].
    + rewrite pop_snoc_blank. exact IH.
    + rewrite pop_snoc_keep by exact Hx. rewrite trailing_blank_snoc.
      apply str_eqb_neq, Hx.
Qed.

Lemma pop_fix (ls : list str) :
  trailing_blank ls = false -> pop_trailing_blank ls = ls.
Proof.
  destruct ls as [|x ls] using rev_ind; [reflexivity|].
  rewrite trailing_blank_snoc. intros H.
  apply pop_snoc_keep, str_eqb_neq, H.
Qed.

Lemma leading_blank_prefix (a b : list str) :
  leading_blank (a ++ b) = false -> leading_blank a = false.
Proof. destruct a; simpl; auto. Qed.

Lemma double_blank_prefix (a b : list str) :
  double_blank (a ++ b) = false -> double_blank a = false.
Proof.
  induction a as [|x a IH]; simpl; auto.
  intros H. apply orb_false_elim in H as [H1 H2].
  rewrite (IH H2), orb_false_r.
  destruct (str_eqb x []); simpl in *; auto.
  apply (leading_blank_prefix a b), H1.
Qed.

Lemma squeeze_shape (ls : list str) :
  forall lb,
    double_blank (squeeze lb ls) = false
    /\ (lb = true -> leading_blank (squeeze lb ls) = false).
Proof.
  induction ls as [|x ls IH]; intros lb; simpl; auto.
  destruct (str_eqb x []) eqn:Hx.
  - destruct lb.
    + apply IH.
    + destruct (IH true) as [H1 H2]. simpl.
      rewrite H1, (H2 eq_refl). split; [reflexivity | discriminate].
  - destruct (IH false) as [H1 _]. simpl. rewrite Hx, H1. auto.
Qed.

Lemma squeeze_fix (ls : list str) :
  forall lb,
    double_blank ls = false ->
    (lb = true -> leading_blank ls = false) ->
    squeeze lb ls = ls.
Proof.
  induction ls as [|x ls IH]; intros lb Hd Hl; simpl; auto.
  simpl in Hd. apply orb_false_elim in Hd as [H1 H2].
  destruct (str_eqb x []) eqn:Hx.
  - apply str_eqb_eq in Hx. subst x.
    destruct lb; [specialize (Hl eq_refl); discriminate|].
    f_equal. apply IH; auto.
  - f_equal. apply IH; auto. discriminate.
Qed.

Lemma squeeze_snoc_blank (ls : list str) :
  forall lb, exists t,
    squeeze lb (ls ++ [[]]) = squeeze lb ls ++ t /\ (t = [] \/ t = [[]]).
Proof.
  induction ls as [|x ls IH]; intros lb; simpl.
  - destruct lb; eauto.
  - destruct (str_eqb x []); [destruct lb|].
    + apply IH.
    + destruct (IH true) as (t & E & Ht). exists t. rewrite E. auto.
    + destruct (IH false) as (t & E & Ht). exists t. rewrite E. auto.
Qed.

Lemma collapse_blank_lines_eq (lines : list str) :
  collapse_blank_lines lines = pop_trailing_blank (squeeze true lines).
Proof.
  unfold collapse_blank_lines. rewrite collapse_loop_squeeze. reflexivity.
Qed.

(** The result has none of the three shapes. *)
Lemma collapse_collapsed (lines : list str) :
  collapsed (collapse_blank_lines lines).
Proof.
  rewrite collapse_blank_lines_eq.
  destruct (squeeze_shape lines true) as [Hd Hl].
  destruct (pop_split (squeeze true lines)) as (t & E).
  rewrite E in Hd, Hl. repeat split.
  - apply (leading_blank_prefix _ t), Hl. reflexivity.
  - apply pop_no_trailing.
  - apply (double_blank_prefix _ t), Hd.
Qed.

(** A list with none of the three shapes is returned as it is. *)
Lemma collapse_fix (ls : list str) :
  collapsed ls -> collapse_blank_lines ls = ls.
Proof.
  intros (Hl & Ht & Hd). rewrite collapse_blank_lines_eq.
  rewrite squeeze_fix; auto. apply pop_fix, Ht.
Qed.

Lemma collapse_snoc_blank (ls : list str) :
  collapse_blank_lines (ls ++ [[]]) = collapse_blank_lines ls.
Proof.
  rewrite !collapse_blank_lines_eq.
  destruct (squeeze_snoc_blank ls true) as (t & E & [-> | ->]); rewrite E.
  - rewrite app_nil_r. reflexivity.
  - apply pop_snoc_blank.
Qed.

End Collapse.

(** * Emitted lines are stable *)

Section Stable.

Lemma line_step_blank (m : mode) : line_step m [] = ([], m).
Proof. reflexivity. Qed.

(** The line emitted for a line is emitted for itself, with the same
    effect on the mode. *)
Lemma line_step_idem (m : mode) (l : str) :
  line_step m (fst (line_step m l)) = line_step m l.
Proof.
  unfold line_step at 2 3.
  set (line := rstrip_space_tab l).
  destruct (str_eqb (strip line) []) eqn:Hb; [reflexivity|].
  apply str_eqb_neq in Hb.
  assert (Hl : lstrip line <> []) by (apply nonblank_lstrip, Hb).
  destruct (startswith (strip line) [HASH]) eqn:Hd.
  { cbn [fst]. unfold line_step.
    rewrite rstrip_space_tab_strip, strip_idem.
    apply str_eqb_neq in Hb. rewrite Hb, Hd. reflexivity. }
  assert (Hr : rstrip_space_tab (lstrip line) = lstrip line)
    by (apply rstrip_space_tab_lstrip, Hb).
  destruct (preset m) eqn:Hp.
  { cbn [fst]. unfold line_step.
    rewrite Hr, strip_lstrip. apply str_eqb_neq in Hb. rewrite Hb, Hd, Hp.
    unfold lstrip. rewrite drop_while_idem. reflexivity. }
  destruct (brace_stats line (block m)) as [[delta lc] next] eqn:Hs.
  cbn [fst]. unfold line_step.
  set (ind := str_mul INDENT (Z.max (level m - lc) 0)).
  assert (Hi : forallb isspace ind = true) by apply repeat_str_space.
  rewrite rstrip_space_tab_indent by assumption.
  rewrite strip_app_space, strip_lstrip by exact Hi.
  apply str_eqb_neq in Hb. rewrite Hb, Hd, Hp.
  rewrite brace_stats_space, brace_stats_lstrip, Hs by exact Hi.
  unfold lstrip at 1. rewrite drop_while_app_all by exact Hi.
  fold (lstrip (lstrip line)). unfold lstrip at 1.
  rewrite drop_while_idem. reflexivity.
Qed.

Lemma emit_stable (ls : list str) :
  forall m, stable m (fst (emit_lines ls m)).
Proof.
  induction ls as [|l ls IH]; intros m; simpl; auto.
  destruct (line_step m l) as [o m'] eqn:E.
  specialize (IH m'). destruct (emit_lines ls m') as [os m''].
  cbn [fst stable] in *.
  pose proof (line_step_idem m l) as H. rewrite E in H. cbn [fst] in H.
  rewrite H. auto.
Qed.

Lemma stable_emit (ls : list str) :
  forall m, stable m ls -> fst (emit_lines ls m) = ls.
Proof.
  induction ls as [|l ls IH]; intros m; simpl; auto.
  intros [H1 H2]. destruct (line_step m l) as [o m'].
  specialize (IH m'). destruct (emit_lines ls m') as [os m''].
  cbn [fst snd] in *. subst o. f_equal. auto.
Qed.

Lemma stable_squeeze (ls : list str) :
  forall m lb, stable m ls -> stable m (squeeze lb ls).
Proof.
  induction ls as [|x ls IH]; intros m lb; simpl; auto.
  intros [H1 H2].
  destruct (str_eqb x []) eqn:Hx.
  - apply str_eqb_eq in Hx. subst x. rewrite line_step_blank in *.
    cbn [fst snd] in *. destruct lb; simpl; auto.
  - simpl. auto.
Qed.

Lemma stable_prefix (a b : list str) :
  forall m, stable m (a ++ b) -> stable m a.
Proof.
  induction a as [|x a IH]; intros m; simpl; auto.
  intros [H1 H2]. eauto.
Qed.

Lemma stable_snoc_blank (a : list str) :
  forall m, stable m a -> stable m (a ++ [[]]).
Proof.
  induction a as [|x a IH]; intros m; simpl; auto.
  intros [H1 H2]. auto.
Qed.

Lemma stable_collapse (ls : list str) (m : mode) :
  stable m ls -> stable m (collapse_blank_lines ls).
Proof.
  intros H. rewrite collapse_blank_lines_eq.
  apply (stable_squeeze _ _ true) in H.
  destruct (pop_split (squeeze true ls)) as (t & E).
  rewrite E in H. apply stable_prefix in H. exact H.
Qed.

End Stable.

(** * Newlines: [normalize_newlines], [split] and [join] *)

Section Newlines.

Lemma replace_crlf_id (s : str) : Forall not_cr s -> replace_crlf s = s.
Proof.
  induction 1 as [|c s Hc Hs IH]; [reflexivity|].
  cbn [replace_crlf]. destruct s as [|d s']; [reflexivity|].
  replace (Ascii.eqb c CR) with false
    by (symmetry; apply Ascii.eqb_neq, Hc).
  cbn [andb]. rewrite IH. reflexivity.
Qed.

Lemma replace_cr_id (s : str) : Forall not_cr s -> replace_cr s = s.
Proof.
  induction 1 as [|c s Hc Hs IH]; [reflexivity|].
  unfold replace_cr in *. simpl. rewrite IH.
  replace (Ascii.eqb c CR) with false
    by (symmetry; apply Ascii.eqb_neq, Hc).
  reflexivity.
Qed.

Lemma normalize_newlines_id (s : str) :
  Forall not_cr s -> normalize_newlines s = s.
Proof.
  intros H. unfold normalize_newlines.
  rewrite replace_crlf_id, replace_cr_id; auto.
Qed.

Lemma normalize_newlines_no_cr (s : str) :
  Forall not_cr (normalize_newlines s).
Proof.
  unfold normalize_newlines, replace_cr. apply Forall_map, Forall_forall.
  intros c _. destruct (Ascii.eqb c CR) eqn:E.
  - discriminate.
  - apply Ascii.eqb_neq, E.
Qed.

Lemma split_lines_cons (c : ascii) (s : str) :
  exists l ls, split_lines s = l :: ls
    /\ split_lines (c :: s)
       = if Ascii.eqb c LF then [] :: l :: ls else (c :: l) :: ls.
Proof.
  assert (H : exists l ls, split_lines s = l :: ls).
  { destruct s as [|d s]; simpl; eauto.
    destruct (Ascii.eqb d LF); eauto.
    destruct (split_lines s); eauto. }
  destruct H as (l & ls & E). exists l, ls. split; auto.
  cbn [split_lines]. rewrite E. reflexivity.
Qed.

(** No piece of a split contains a line feed, and every character of a
    piece is a character of the text. *)
Lemma split_lines_chars (P : ascii -> Prop) (s : str) :
  Forall P s -> Forall (Forall (fun c => P c /\ c <> LF)) (split_lines s).
Proof.
  induction 1 as [|c s Hc Hs IH].
  - repeat constructor.
  - destruct (split_lines_cons c s) as (l & ls & E & ->).
    rewrite E in IH. inversion IH; subst.
    destruct (Ascii.eqb c LF) eqn:Ec.
    + repeat constructor; auto.
    + apply Ascii.eqb_neq in Ec. repeat constructor; auto.
Qed.

Lemma split_lines_line (l : str) :
  Forall not_lf l -> split_lines l = [l].
Proof.
  induction 1 as [|c s Hc Hs IH]; [reflexivity|].
  cbn [split_lines]. rewrite IH.
  replace (Ascii.eqb c LF) with false
    by (symmetry; apply Ascii.eqb_neq, Hc).
  reflexivity.
Qed.

Lemma split_lines_app (l rest : str) :
  Forall not_lf l ->
  split_lines (l ++ LF :: rest) = l :: split_lines rest.
Proof.
  induction 1 as [|c s Hc Hs IH]; [reflexivity|].
  cbn [app split_lines]. rewrite IH.
  replace (Ascii.eqb c LF) with false
    by (symmetry; apply Ascii.eqb_neq, Hc).
  reflexivity.
Qed.

(** Splitting a joined text that got its final newline. *)
Lemma split_join_newline (ls : list str) :
  Forall (Forall not_lf) ls ->
  split_lines (join_lines ls ++ [LF])
  = match ls with [] => [[]] | _ => ls end ++ [[]].
Proof.
  induction 1 as [|l ls Hl Hls IH]; [reflexivity|].
  destruct ls as [|l' ls'].
  - simpl. rewrite split_lines_app by exact Hl. reflexivity.
  - change (join_lines (l :: l' :: ls'))
      with (l ++ LF :: join_lines (l' :: ls')).
    rewrite <- app_assoc. cbn [app].
    rewrite split_lines_app by exact Hl. rewrite IH. reflexivity.
Qed.

Lemma join_lines_chars (P : ascii -> Prop) (ls : list str) :
  P LF -> Forall (Forall P) ls -> Forall P (join_lines ls).
Proof.
  intros HP. induction 1 as [|l ls Hl Hls IH]; [constructor|].
  destruct ls as [|l' ls']; [exact Hl|].
  change (join_lines (l :: l' :: ls'))
    with (l ++ LF :: join_lines (l' :: ls')).
  apply Forall_app. split; auto.
Qed.

Lemma repeat_str_chars (P : ascii -> Prop) (k : nat) :
  P SPACE -> Forall P (repeat_str INDENT k).
Proof. intros H. induction k; simpl; auto. Qed.

(** The characters of an emitted line are characters of the line it
    was made from, or spaces. *)
Lemma line_step_chars (P : ascii -> Prop) (m : mode) (l : str) :
  P SPACE -> Forall P l -> Forall P (fst (line_step m l)).
Proof.
  intros HS Hl.
  assert (H1 : Forall P (rstrip_space_tab l))
    by (eapply incl_Forall; [apply rstrip_by_incl | exact Hl]).
  assert (H2 : Forall P (lstrip (rstrip_space_tab l)))
    by (eapply incl_Forall; [apply drop_while_incl | exact H1]).
  assert (H3 : Forall P (strip (rstrip_space_tab l)))
    by (eapply incl_Forall; [apply rstrip_by_incl | exact H2]).
  unfold line_step.
  destruct (str_eqb _ []); [constructor|].
  destruct (startswith _ [HASH]); [exact H3|].
  destruct (preset m); [exact H2|].
  destruct (brace_stats _ _) as [[delta lc] next]. cbn [fst].
  apply Forall_app. split; auto. apply repeat_str_chars, HS.
Qed.

Lemma emit_lines_chars (P : ascii -> Prop) (ls : list str) :
  P SPACE ->
  forall m, Forall (Forall P) ls -> Forall (Forall P) (fst (emit_lines ls m)).
Proof.
  intros HS. induction ls as [|l ls IH]; intros m H; simpl; auto.
  inversion H; subst.
  pose proof (line_step_chars P m l HS) as Hl.
  destruct (line_step m l) as [o m'].
  specialize (IH m'). destruct (emit_lines ls m') as [os m''].
  cbn [fst] in *. constructor; auto.
Qed.

Lemma squeeze_incl (ls : list str) : forall lb, incl (squeeze lb ls) ls.
Proof.
  induction ls as [|x ls IH]; intros lb; simpl.
  - apply incl_refl.
  - destruct (str_eqb x []) eqn:Hx; [destruct lb|].
    + apply incl_tl, IH.
    + apply str_eqb_eq in Hx. subst x.
      apply incl_cons; [left; reflexivity | apply incl_tl, IH].
    + apply incl_cons; [left; reflexivity | apply incl_tl, IH].
Qed.

Lemma collapse_incl (ls : list str) : incl (collapse_blank_lines ls) ls.
Proof.
  rewrite collapse_blank_lines_eq.
  destruct (pop_split (squeeze true ls)) as (t & E).
  intros x Hx. apply (squeeze_incl ls true). rewrite E.
  apply in_or_app. auto.
Qed.

End Newlines.

(** * [format_frag_text] computes [format_text] *)

Lemma format_frag_text_ok (text : str) :
  format_frag_text text = Ok (format_text text).
Proof.
  unfold format_frag_text. rewrite format_lines_ok. reflexivity.
Qed.

Lemma input_lines_inline (text : str) :
  Forall (Forall inline_char) (split_lines (normalize_newlines text)).
Proof.
  pose proof (split_lines_chars not_cr _ (normalize_newlines_no_cr text)) as H.
  eapply Forall_impl; [|exact H]. intros l Hl.
  eapply Forall_impl; [|exact Hl]. intros c [H1 H2]. split; auto.
Qed.

Lemma output_lines_inline (text : str) :
  Forall (Forall inline_char) (output_lines text).
Proof.
  unfold output_lines. eapply incl_Forall; [apply collapse_incl|].
  apply emit_lines_chars; [split; discriminate | apply input_lines_inline].
Qed.

Lemma output_lines_stable (text : str) : stable init_mode (output_lines text).
Proof. apply stable_collapse, emit_stable. Qed.

Lemma output_lines_collapsed (text : str) : collapsed (output_lines text).
Proof. apply collapse_collapsed. Qed.

(** Formatting the result again gives the same lines. *)
Lemma output_lines_format_text (text : str) :
  output_lines (format_text text) = output_lines text.
Proof.
  pose proof (output_lines_inline text) as Hin.
  pose proof (output_lines_stable text) as Hst.
  pose proof (output_lines_collapsed text) as Hco.
  unfold output_lines at 1. unfold format_text.
  set (C := output_lines text) in *.
  rewrite normalize_newlines_id.
  2:{ apply Forall_app. split; [|repeat constructor; discriminate].
      apply join_lines_chars; [discriminate|].
      eapply Forall_impl; [|exact Hin]. intros l Hl.
      eapply Forall_impl; [|exact Hl]. intros c [_ H]. exact H. }
  rewrite split_join_newline.
  2:{ eapply Forall_impl; [|exact Hin]. intros l Hl.
      eapply Forall_impl; [|exact Hl]. intros c [H _]. exact H. }
  destruct C as [|c0 C'] eqn:EC.
  - reflexivity.
  - rewrite stable_emit by (apply stable_snoc_blank, Hst).
    rewrite collapse_snoc_blank. apply collapse_fix, Hco.
Qed.

(** * Properties of the formatter *)

(** ** Idempotence *)

(** C1. For every input text [T], formatting returns a text, and formatting
    that text again returns the identical text:
    [format(format(T)) == format(T)]. *)
Theorem format_frag_text_idempotent (T : str) :
  exists o, format_frag_text T = Ok o /\ format_frag_text o = Ok o.
Proof.
  exists (format_text T). split; [apply format_frag_text_ok|].
  rewrite format_frag_text_ok. f_equal.
  unfold format_text at 1 3. rewrite output_lines_format_text. reflexivity.
Qed.

(** ** The concrete scenario *)

(** C2. [format("a{\nb\n}\nc\n\n\nd\n")] is exactly
    ["a{\n  b\n}\nc\n\nd\n"]: [b] is indented by two spaces, [}] and [c]
    are at level 0, the blank run is one blank line, and the text ends with
    a single newline. *)
Theorem format_frag_text_scenario :
  format_frag_text
    ["a"; "{"; LF; "b"; LF; "}"; LF; "c"; LF; LF; LF; "d"; LF]%char
  = Ok ["a"; "{"; LF; " "; " "; "b"; LF; "}"; LF; "c"; LF; LF; "d"; LF]%char.
Proof. vm_compute. reflexivity. Qed.

(** ** Blank lines *)

Lemma line_step_nonblank (m : mode) (l : str) :
  fst (line_step m l) = [] \/ strip (fst (line_step m l)) <> [].
Proof.
  unfold line_step.
  destruct (str_eqb _ []) eqn:Hb; [left; reflexivity | right].
  apply str_eqb_neq in Hb.
  destruct (startswith _ [HASH]); [cbn [fst]; rewrite strip_idem; exact Hb|].
  destruct (preset m); [cbn [fst]; rewrite strip_lstrip; exact Hb|].
  destruct (brace_stats _ _) as [[delta lc] next]. cbn [fst].
  rewrite strip_app_space, strip_lstrip by apply repeat_str_space. exact Hb.
Qed.

Lemma emit_lines_nonblank (ls : list str) :
  forall m, Forall (fun o => o = [] \/ strip o <> []) (fst (emit_lines ls m)).
Proof.
  induction ls as [|l ls IH]; intros m; simpl; auto.
  pose proof (line_step_nonblank m l) as H.
  destruct (line_step m l) as [o m'].
  specialize (IH m'). destruct (emit_lines ls m') as [os m''].
  cbn [fst] in *. constructor; auto.
Qed.

Section NewlineRuns.

Lemma newline_run_line (l t : str) :
  Forall not_lf l -> l <> [] -> newline_run (l ++ t) = 0.
Proof.
  intros H Hl. destruct H as [|c l Hc _]; [contradiction|].
  cbn [app newline_run].
  replace (Ascii.eqb c LF) with false by (symmetry; apply Ascii.eqb_neq, Hc).
  reflexivity.
Qed.

Lemma max_newline_run_line (l t : str) :
  Forall not_lf l -> max_newline_run (l ++ t) = max_newline_run t.
Proof.
  induction 1 as [|c l Hc Hl IH]; [reflexivity|].
  cbn [app max_newline_run newline_run].
  replace (Ascii.eqb c LF) with false by (symmetry; apply Ascii.eqb_neq, Hc).
  rewrite IH. reflexivity.
Qed.

Lemma join_lines_cons (l l' : str) (ls : list str) :
  join_lines (l :: l' :: ls) ++ [LF]
  = l ++ LF :: (join_lines (l' :: ls) ++ [LF]).
Proof.
  change (join_lines (l :: l' :: ls)) with (l ++ LF :: join_lines (l' :: ls)).
  rewrite <- app_assoc. reflexivity.
Qed.

Lemma join_lines_snoc (ls : list str) (l : str) :
  exists pre, join_lines (ls ++ [l]) = pre ++ l.
Proof.
  induction ls as [|x ls (pre & E)].
  - exists []. reflexivity.
  - destruct ls as [|y ls].
    + exists (x ++ [LF]). simpl. rewrite <- app_assoc. reflexivity.
    + exists (x ++ LF :: pre).
      change (join_lines ((x :: y :: ls) ++ [l]))
        with (x ++ LF :: join_lines ((y :: ls) ++ [l])).
      rewrite E, <- app_assoc. reflexivity.
Qed.

Lemma trailing_blank_cons (x : str) (ls : list str) :
  ls <> [] -> trailing_blank (x :: ls) = trailing_blank ls.
Proof.
  intros H. unfold trailing_blank. cbn [rev].
  destruct (rev ls) as [|y r] eqn:E; [|reflexivity].
  apply (f_equal (@rev str)) in E. rewrite rev_involutive in E.
  contradiction.
Qed.

(** The newline runs of the joined text of collapsed lines. *)
Lemma joined_runs (ls : list str) :
  Forall (Forall not_lf) ls ->
  ls <> [] ->
  trailing_blank ls = false ->
  double_blank ls = false ->
  max_newline_run (join_lines ls ++ [LF]) <= 2
  /\ newline_run (join_lines ls ++ [LF]) <= 1
  /\ (leading_blank ls = false -> newline_run (join_lines ls ++ [LF]) = 0).
Proof.
  induction 1 as [|l ls Hl Hls IH]; [contradiction|].
  intros _ Ht Hd.
  destruct ls as [|l' ls'].
  - (* the last line: not empty *)
    assert (Hne : l <> []) by (apply str_eqb_neq, Ht).
    cbn [join_lines].
    rewrite max_newline_run_line, newline_run_line by assumption.
    repeat split; simpl; lia.
  - rewrite join_lines_cons.
    assert (Ht' : trailing_blank (l' :: ls') = false)
      by (rewrite <- (trailing_blank_cons l) by discriminate; exact Ht).
    cbn [double_blank] in Hd. apply orb_false_elim in Hd as [Hd1 Hd2].
    destruct (IH ltac:(discriminate) Ht' Hd2) as (M & R & L).
    rewrite max_newline_run_line by exact Hl.
    destruct (list_eq_dec ascii_dec l []) as [-> | Hne].
    + (* an empty line: the next one is not *)
      rewrite str_eqb_refl in Hd1. cbn [andb] in Hd1. specialize (L Hd1).
      cbn [app max_newline_run newline_run Ascii.eqb LF Bool.eqb].
      unfold str in *. rewrite L. repeat split; try lia. discriminate.
    + rewrite newline_run_line by assumption.
      cbn [max_newline_run newline_run Ascii.eqb LF Bool.eqb].
      unfold str in *. repeat split; lia.
Qed.

Lemma joined_end (ls : list str) :
  Forall (Forall not_lf) ls ->
  trailing_blank ls = false ->
  newline_run (rev (join_lines ls ++ [LF])) = 1.
Proof.
  intros Hls Ht. destruct ls as [|x ls] using rev_ind; [reflexivity|].
  rewrite trailing_blank_snoc in Ht. apply str_eqb_neq in Ht.
  apply Forall_app in Hls as [_ Hx]. inversion Hx as [|? ? Hx' _]; subst.
  destruct (join_lines_snoc ls x) as (pre & ->).
  rewrite !rev_app_distr. cbn [rev app newline_run Ascii.eqb LF Bool.eqb].
  destruct (exists_last Ht) as (x' & c & ->).
  apply Forall_app in Hx' as [_ Hc]. inversion Hc as [|? ? Hc' _]; subst.
  rewrite rev_app_distr. cbn [rev app newline_run].
  replace (Ascii.eqb c LF) with false by (symmetry; apply Ascii.eqb_neq, Hc').
  reflexivity.
Qed.

End NewlineRuns.

(** C6. The text returned for any input is the join, closed by one newline,
    of lines that hold no newline, each empty or with a character that is
    not whitespace, and among which there is no empty line at the start,
    none at the end and no two in a row.  In the text itself: no more than
    two newlines follow one another, the text ends with exactly one
    newline, and it does not start with a newline unless it is the single
    newline returned when no line is left.  This is what
    [collapse_blank_lines] returns for every list, and three blank lines
    between two non-blank lines come out as exactly one. *)
Theorem output_blank_lines_collapsed :
  (forall T, exists ls,
      format_frag_text T = Ok (join_lines ls ++ [LF])
      /\ Forall (Forall not_lf) ls
      /\ Forall (fun l => l = [] \/ strip l <> []) ls
      /\ leading_blank ls = false
      /\ trailing_blank ls = false
      /\ double_blank ls = false
      /\ max_newline_run (join_lines ls ++ [LF]) <= 2
      /\ newline_run (rev (join_lines ls ++ [LF])) = 1
      /\ (ls = [] \/ newline_run (join_lines ls ++ [LF]) = 0))
  /\ (forall lines,
        leading_blank (collapse_blank_lines lines) = false
        /\ trailing_blank (collapse_blank_lines lines) = false
        /\ double_blank (collapse_blank_lines lines) = false)
  /\ (forall c a d b,
        collapse_blank_lines [c :: a; []; []; []; d :: b]
        = [c :: a; []; d :: b]).
Proof.
  split; [|split].
  - intros T. exists (output_lines T).
    destruct (output_lines_collapsed T) as (H1 & H2 & H3).
    assert (Hlf : Forall (Forall not_lf) (output_lines T)).
    { eapply Forall_impl; [|apply output_lines_inline]. intros l Hl.
      eapply Forall_impl; [|exact Hl]. intros x [H _]. exact H. }
    split; [apply format_frag_text_ok|].
    split; [exact Hlf|].
    split.
    { unfold output_lines. eapply incl_Forall; [apply collapse_incl|].
      apply emit_lines_nonblank. }
    split; [exact H1|]. split; [exact H2|]. split; [exact H3|].
    split; [|split].
    + destruct (output_lines T) as [|l ls] eqn:E; [simpl; lia|].
      apply joined_runs; auto. discriminate.
    + apply joined_end; auto.
    + destruct (output_lines T) as [|l ls] eqn:E; [left; reflexivity|].
      right. apply joined_runs; auto. discriminate.
  - intros lines. apply collapse_collapsed.
  - intros c a d b. rewrite collapse_blank_lines_eq. reflexivity.
Qed.

(** ** The indentation level *)

Lemma line_step_level (m : mode) (l : str) :
  level (snd (line_step m l)) = level m
  \/ exists delta, level (snd (line_step m l)) = Z.max (level m + delta) 0.
Proof.
  unfold line_step.
  destruct (str_eqb _ []); [auto|].
  destruct (startswith _ [HASH]).
  { destruct (startswith _ (lit "#preset ")); [auto|].
    destruct (str_eqb _ (lit "#endpreset")); auto. }
  destruct (preset m); [auto|].
  destruct (brace_stats _ _) as [[delta lc] next]. right. exists delta.
  reflexivity.
Qed.

Lemma emit_lines_level (ls : list str) :
  forall m, (0 <= level m)%Z -> (0 <= level (snd (emit_lines ls m)))%Z.
Proof.
  induction ls as [|l ls IH]; intros m Hm; simpl; auto.
  pose proof (line_step_level m l) as H.
  destruct (line_step m l) as [o m'].
  specialize (IH m'). destruct (emit_lines ls m') as [os m''].
  cbn [snd] in *. apply IH. destruct H as [-> | (delta & ->)]; lia.
Qed.

Lemma line_step_indent (m : mode) (l : str) :
  fst (line_step m l) = strip (rstrip_space_tab l)
  \/ exists k, (0 <= k)%Z
       /\ fst (line_step m l) = str_mul INDENT k ++ lstrip (rstrip_space_tab l).
Proof.
  unfold line_step.
  destruct (str_eqb _ []) eqn:Hb.
  { left. apply str_eqb_eq in Hb. rewrite Hb. reflexivity. }
  destruct (startswith _ [HASH]); [left; reflexivity|].
  destruct (preset m).
  { right. exists 0%Z. split; [lia | reflexivity]. }
  destruct (brace_stats _ _) as [[delta lc] next].
  right. exists (Z.max (level m - lc) 0). split; [lia | reflexivity].
Qed.

(** C7. In a run the indentation level is never negative: it starts at 0
    and, whatever lines have been processed so far (also with more closing
    than opening braces), the loop is in a state whose level is at least 0;
    a line either leaves the level as it is or sets it to
    [max(level + delta, 0)], and it is emitted stripped (a directive) or
    behind a number of indentation units that is at least 0; two unmatched
    [}] leave the level at 0, so that the line after a later [{] is
    indented once. *)
Theorem indent_level_nonnegative :
  Fmt.indent_level Fmt.init = 0%Z
  /\ (forall lines, exists st,
        format_lines lines Fmt.init = Ok st
        /\ (0 <= Fmt.indent_level st)%Z)
  /\ (forall st original, exists st',
        format_line st original = Ok st'
        /\ (Fmt.indent_level st' = Fmt.indent_level st
            \/ exists delta,
                 Fmt.indent_level st'
                 = Z.max (Fmt.indent_level st + delta) 0)
        /\ (Fmt.out st' = Fmt.out st ++ [strip (rstrip_space_tab original)]
            \/ exists k, (0 <= k)%Z
                 /\ Fmt.out st'
                    = Fmt.out st
                      ++ [str_mul INDENT k
                          ++ lstrip (rstrip_space_tab original)]))
  /\ format_frag_text
       ["}"; LF; "}"; LF; "a"; "{"; LF; "b"; LF]%char
     = Ok ["}"; LF; "}"; LF; "a"; "{"; LF; " "; " "; "b"; LF]%char.
Proof.
  split; [reflexivity|]. split; [|split].
  - intros lines. rewrite format_lines_ok. eexists. split; [reflexivity|].
    cbn [with_out Fmt.indent_level].
    apply emit_lines_level. simpl. lia.
  - intros st original. rewrite format_line_ok. eexists.
    split; [reflexivity|]. cbn [with_out Fmt.indent_level Fmt.out].
    split; [apply (line_step_level (mode_of st) original)|].
    destruct (line_step_indent (mode_of st) original) as [-> | (k & Hk & ->)];
      [left | right; exists k]; auto.
  - vm_compute. reflexivity.
Qed.

(** ** Totality *)

(** C8. [format_frag_text] returns a text for every input: no lookup in
    the scanner is out of range and its loop ends for every line within
    [len(line)] passes, more fuel changing nothing. *)
Theorem format_frag_text_total :
  (forall text, exists o, format_frag_text text = Ok o)
  /\ (forall line b, exists code next,
        strip_comments_for_braces line b = Ok (code, next)
        /\ forall extra,
             strip_comments_for_braces_fuel (length line + extra) line b
             = Ok (code, next))
  /\ (forall line b, exists stats, line_brace_stats line b = Ok stats).
Proof.
  split; [|split].
  - intros text. exists (format_text text). apply format_frag_text_ok.
  - intros line b.
    exists (fst (scan_line line b)), (snd (scan_line line b)).
    rewrite <- surjective_pairing. split.
    + apply strip_comments_for_braces_ok.
    + intros extra. apply scan_while_fuel. lia.
  - intros line b. exists (brace_stats line b). apply line_brace_stats_ok.
Qed.

(** ** Directive lines *)

(** C9. A line whose stripped form starts with [#] is a directive whatever
    the carried block-comment flag is: the stripped line is appended to
    [out], [in_preset] is set by [#preset ] and cleared by [#endpreset]
    (compared in lower case), and the indentation level and the
    block-comment flag are left as they were. *)
Theorem directive_line_step (st : Fmt.state) (original : str) :
  let stripped := strip (rstrip_space_tab original) in
  startswith stripped [HASH] = true ->
  format_line st original
  = Ok (Fmt.mk (Fmt.out st ++ [stripped])
               (Fmt.indent_level st)
               (if startswith (lower stripped) (lit "#preset ") then true
                else if str_eqb (lower stripped) (lit "#endpreset") then false
                else Fmt.in_preset st)
               (Fmt.in_block_comment st)).
Proof.
  intros stripped H. unfold format_line. fold stripped.
  destruct (str_eqb stripped []) eqn:E.
  - apply str_eqb_eq in E. rewrite E in H. discriminate.
  - rewrite H. destruct st as [out lvl pre blk].
    destruct (startswith _ (lit "#preset ")); [reflexivity|].
    destruct (str_eqb _ (lit "#endpreset")); reflexivity.
Qed.

(** Inside an unterminated block comment, at level 1, the line
    ["  #preset x"] goes out as ["#preset x"] and turns preset mode on. *)
Lemma directive_line_step_witness :
  startswith (strip (rstrip_space_tab (lit "  #preset x"))) [HASH] = true
  /\ format_line (Fmt.mk [] 1 false true) (lit "  #preset x")
     = Ok (Fmt.mk [lit "#preset x"] 1 true true).
Proof.
  split; [reflexivity|].
  exact (directive_line_step (Fmt.mk [] 1 false true) (lit "  #preset x")
           eq_refl).
Defined.

(** ** Blank input *)

Lemma replace_crlf_space_aux (s : str) :
  (forallb isspace s = true -> forallb isspace (replace_crlf s) = true)
  /\ (forall c, forallb isspace (c :: s) = true ->
                forallb isspace (replace_crlf (c :: s)) = true).
Proof.
  induction s as [|d s [IH1 IH2]].
  - split; auto.
  - split; [apply IH2|].
    intros c H. cbn [replace_crlf].
    cbn [forallb] in H. apply andb_prop in H as [Hc H].
    destruct (Ascii.eqb c CR && Ascii.eqb d LF).
    + cbn [forallb] in *. apply andb_prop in H as [_ Hs].
      rewrite (IH1 Hs). reflexivity.
    + change (isspace c && forallb isspace (replace_crlf (d :: s)) = true).
      rewrite Hc. apply IH2, H.
Qed.

Lemma replace_crlf_space (s : str) :
  forallb isspace s = true -> forallb isspace (replace_crlf s) = true.
Proof. apply replace_crlf_space_aux. Qed.

Lemma normalize_newlines_space (s : str) :
  forallb isspace s = true -> forallb isspace (normalize_newlines s) = true.
Proof.
  intros H. apply replace_crlf_space in H.
  unfold normalize_newlines, replace_cr.
  rewrite forallb_forall in *. intros c Hc.
  apply in_map_iff in Hc as (x & <- & Hx).
  destruct (Ascii.eqb x CR); [reflexivity | auto].
Qed.

Lemma line_step_space (m : mode) (l : str) :
  Forall (fun c => isspace c = true) l -> line_step m l = ([], m).
Proof.
  intros H. unfold line_step.
  assert (E : strip (rstrip_space_tab l) = []).
  { unfold strip. replace (lstrip (rstrip_space_tab l)) with (@nil ascii);
      [reflexivity|].
    symmetry. apply drop_while_all, forallb_forall.
    rewrite Forall_forall in H. intros c Hc.
    apply H, (rstrip_by_incl is_space_or_tab l), Hc. }
  rewrite E. reflexivity.
Qed.

Lemma emit_lines_space (ls : list str) (m : mode) :
  Forall (Forall (fun c => isspace c = true)) ls ->
  fst (emit_lines ls m) = map (fun _ => []) ls.
Proof.
  induction 1 as [|l ls Hl Hls IH]; [reflexivity|].
  cbn [emit_lines]. rewrite line_step_space by exact Hl.
  destruct (emit_lines ls m) as [os m']. cbn [fst map] in *.
  rewrite IH. reflexivity.
Qed.

Lemma squeeze_blank (A : Type) (ls : list A) :
  squeeze true (map (fun _ => []) ls) = [].
Proof. induction ls; simpl; auto. Qed.

(** C10. For an input made of whitespace only (blank and whitespace-only
    lines, whatever the line endings), and for the empty input, the result
    is the one-character text ["\n"]. *)
Theorem format_frag_text_blank (T : str) :
  forallb isspace T = true ->
  format_frag_text T = Ok [LF] /\ format_frag_text [] = Ok [LF].
Proof.
  intros H. split; [|reflexivity].
  rewrite format_frag_text_ok. f_equal.
  unfold format_text, output_lines.
  apply normalize_newlines_space in H. rewrite forallb_forall in H.
  rewrite emit_lines_space.
  - rewrite collapse_blank_lines_eq, squeeze_blank. reflexivity.
  - eapply Forall_impl; [|apply (split_lines_chars (fun c => isspace c = true))].
    + intros l Hl. eapply Forall_impl; [|exact Hl]. intros c [Hc _]. exact Hc.
    + apply Forall_forall, H.
Qed.

(** Two whitespace-only lines, the second ended by CR LF. *)
Lemma format_frag_text_blank_witness :
  forallb isspace [SPACE; LF; TAB; CR; LF] = true
  /\ format_frag_text [SPACE; LF; TAB; CR; LF] = Ok [LF].
Proof.
  split; [reflexivity|].
  exact (proj1 (format_frag_text_blank [SPACE; LF; TAB; CR; LF] eq_refl)).
Defined.

(** ** Comments, strings and braces *)

Section Regions.

Lemma select_line_comment (s : str) :
  select (fun r => negb (in_comment r)) s (map (fun _ => LineComment) s) = [].
Proof. induction s; simpl; auto. Qed.

Lemma regions_scan_pair (s : str) :
  (forall blk q esc,
      length (regions blk q esc s) = length s
      /\ fst (scan_chars blk q esc s)
         = select (fun r => negb (in_comment r)) s (regions blk q esc s))
  /\ (forall c blk q esc,
        length (regions blk q esc (c :: s)) = length (c :: s)
        /\ fst (scan_chars blk q esc (c :: s))
           = select (fun r => negb (in_comment r)) (c :: s)
                    (regions blk q esc (c :: s))).
Proof.
  induction s as [|d s [IH1 IH2]].
  - split; [intros; split; reflexivity|].
    intros c blk q esc. cbn [regions scan_chars].
    destruct blk; [split; reflexivity|].
    destruct q as [x|].
    + destruct esc; [|destruct (Ascii.eqb c BACKSLASH);
                       [|destruct (Ascii.eqb c x)]]; split; reflexivity.
    + destruct (Ascii.eqb c SQUOTE || Ascii.eqb c DQUOTE); split; reflexivity.
  - split; [intros; apply IH2|].
    intros c blk q esc.
    remember (d :: s) as t eqn:Et. cbn [regions scan_chars].
    subst t. cbv beta iota.
    destruct blk.
    { destruct (Ascii.eqb c STAR && Ascii.eqb d SLASH).
      - destruct (IH1 false q esc) as [L E]. cbn [length select in_comment negb].
        rewrite L, E. auto.
      - destruct (IH2 d true q esc) as [L E].
        cbn [length select in_comment negb] in *. rewrite L, E. auto. }
    destruct q as [x|].
    { destruct esc; [|destruct (Ascii.eqb c BACKSLASH);
                       [|destruct (Ascii.eqb c x)]];
        match goal with
        | |- context [scan_chars ?b ?q' ?e (d :: s)] =>
            destruct (IH2 d b q' e) as [L E]
        end;
        cbn [length select in_comment negb fst] in *; rewrite L, E; auto. }
    destruct (Ascii.eqb c SQUOTE || Ascii.eqb c DQUOTE).
    { destruct (IH2 d false (Some c) esc) as [L E].
      cbn [length select in_comment negb fst] in *. rewrite L, E. auto. }
    destruct (Ascii.eqb c SLASH && Ascii.eqb d SLASH).
    { rewrite select_line_comment, length_map. auto. }
    destruct (Ascii.eqb c SLASH && Ascii.eqb d STAR).
    { destruct (IH1 true None esc) as [L E].
      cbn [length select in_comment negb]. rewrite L, E. auto. }
    destruct (IH2 d false None esc) as [L E].
    cbn [length select in_comment negb fst] in *. rewrite L, E. auto.
Qed.

Lemma scan_line_outside_comments (line : str) (b : bool) :
  fst (scan_line line b) = outside_comments line b.
Proof. apply regions_scan_pair. Qed.


End Regions.






(** ** What the scanner carries to the next line *)





(** ** Preset blocks *)

Section Preset.

Lemma lower_char_hash (c : ascii) :
  Ascii.eqb HASH (lower_char c) = Ascii.eqb HASH c.
Proof. destruct c as [[] [] [] [] [] [] [] []]; vm_compute; reflexivity. Qed.

Lemma lower_startswith_hash (s p : str) :
  startswith (lower s) (HASH :: p) = true -> startswith s [HASH] = true.
Proof.
  destruct s as [|c s]; cbn [lower map startswith]; [discriminate|].
  rewrite lower_char_hash. intros H. apply andb_prop in H as [-> _].
  destruct s; reflexivity.
Qed.

Lemma strip_nil_lstrip (s : str) : strip s = [] -> lstrip s = [].
Proof.
  unfold strip, rstrip. intros H.
  destruct (rstrip_by_split isspace (lstrip s)) as (ws & E & A).
  rewrite H in E. simpl in E.
  pose proof (drop_while_head isspace s) as Hh. fold (lstrip s) in Hh.
  destruct (lstrip s) as [|c r]; [reflexivity|].
  subst ws. simpl in A. rewrite Hh in A. discriminate.
Qed.

Lemma emit_lines_app (a b : list str) :
  forall m,
    emit_lines (a ++ b) m
    = (fst (emit_lines a m) ++ fst (emit_lines b (snd (emit_lines a m))),
       snd (emit_lines b (snd (emit_lines a m)))).
Proof.
  induction a as [|x a IH]; intros m.
  - simpl. destruct (emit_lines b m); reflexivity.
  - cbn [app emit_lines]. destruct (line_step m x) as [o m'].
    rewrite IH. destruct (emit_lines a m') as [oa ma].
    cbn [fst snd]. destruct (emit_lines b ma); reflexivity.
Qed.

Lemma line_step_preset (lvl : Z) (blk : bool) (l : str) :
  not_directive l ->
  line_step (Mode lvl true blk) l = (preset_line l, Mode lvl true blk).
Proof.
  unfold not_directive, line_step, preset_line. intros H. rewrite H.
  destruct (str_eqb _ []) eqn:E; [|reflexivity].
  apply str_eqb_eq, strip_nil_lstrip in E. rewrite E. reflexivity.
Qed.

(** In a preset block every line but [#endpreset] leaves the mode as it
    is. *)
Lemma line_step_block (lvl : Z) (blk : bool) (l : str) :
  not_endpreset l ->
  line_step (Mode lvl true blk) l = (block_line l, Mode lvl true blk).
Proof.
  intros He. unfold block_line.
  destruct (startswith (strip (rstrip_space_tab l)) [HASH]) eqn:Hd;
    [|apply line_step_preset, Hd].
  unfold line_step. rewrite Hd.
  destruct (str_eqb _ []) eqn:E.
  { apply str_eqb_eq in E. rewrite E in Hd. discriminate. }
  destruct (startswith _ (lit "#preset ")); [reflexivity|].
  apply str_eqb_neq in He. rewrite He. reflexivity.
Qed.

Lemma emit_lines_block (lvl : Z) (blk : bool) (body : list str) :
  Forall not_endpreset body ->
  emit_lines body (Mode lvl true blk)
  = (map block_line body, Mode lvl true blk).
Proof.
  induction 1 as [|l body Hl Hb IH]; [reflexivity|].
  cbn [emit_lines map]. rewrite line_step_block by exact Hl.
  rewrite IH. reflexivity.
Qed.

End Preset.

(** C5 as stated fails on leading whitespace: the line [  x = 1] of a preset
    block is emitted as [x = 1], without its two leading spaces. *)
Lemma preset_leading_whitespace_stripped :
  format_frag_text (unlines ["#preset a"; "  x = 1"; "#endpreset"]%string)
  = Ok (unlines ["#preset a"; "x = 1"; "#endpreset"]%string)
  /\ format_frag_text (unlines ["#preset a"; "  x = 1"; "#endpreset"]%string)
     <> Ok (unlines ["#preset a"; "  x = 1"; "#endpreset"]%string).
Proof.
  split; [vm_compute; reflexivity | vm_compute; discriminate].
Qed.

(** C5, amended. Between a [#preset <name>] directive and the following
    [#endpreset], whatever else the block holds (other directives
    included), every line that is not a directive is emitted with its
    trailing spaces and tabs trimmed and its leading whitespace stripped,
    at column zero and with no indentation added, and a directive is
    emitted stripped; whatever braces and comment marks the block holds,
    the indentation level and the block-comment flag after [#endpreset]
    are those before [#preset]. *)
Theorem preset_passthrough (st : Fmt.state) (opening closing : str)
    (body : list str) :
  startswith (lower (strip (rstrip_space_tab opening))) (lit "#preset ") = true ->
  lower (strip (rstrip_space_tab closing)) = lit "#endpreset" ->
  Forall not_endpreset body ->
  format_lines (opening :: body ++ [closing]) st
  = Ok (Fmt.mk (Fmt.out st
                ++ strip (rstrip_space_tab opening)
                   :: map block_line body
                ++ [strip (rstrip_space_tab closing)])
               (Fmt.indent_level st) false (Fmt.in_block_comment st))
  /\ Forall (fun l => not_directive l ->
                      block_line l = lstrip (rstrip_space_tab l)) body.
Proof.
  intros Ho Hc Hb.
  assert (E1 : forall lvl pre blk,
             line_step (Mode lvl pre blk) opening
             = (strip (rstrip_space_tab opening), Mode lvl true blk)).
  { intros. unfold line_step. pose proof (lower_startswith_hash _ _ Ho) as Hh.
    destruct (str_eqb _ []) eqn:E.
    - apply str_eqb_eq in E. rewrite E in Hh. discriminate.
    - rewrite Hh, Ho. reflexivity. }
  assert (E2 : forall lvl blk,
             line_step (Mode lvl true blk) closing
             = (strip (rstrip_space_tab closing), Mode lvl false blk)).
  { intros. unfold line_step.
    assert (Hh : startswith (strip (rstrip_space_tab closing)) [HASH] = true).
    { apply (lower_startswith_hash _ (lit "endpreset")). rewrite Hc.
      reflexivity. }
    destruct (str_eqb _ []) eqn:E.
    - apply str_eqb_eq in E. rewrite E in Hh. discriminate.
    - rewrite Hh, Hc. reflexivity. }
  assert (E : forall m,
             emit_lines (opening :: body ++ [closing]) m
             = (strip (rstrip_space_tab opening)
                  :: map block_line body
                  ++ [strip (rstrip_space_tab closing)],
                Mode (level m) false (block m))).
  { intros [lvl pre blk]. cbn [emit_lines level block].
    rewrite E1, emit_lines_app, emit_lines_block by exact Hb.
    cbn [fst snd emit_lines]. rewrite E2. reflexivity. }
  split.
  - rewrite format_lines_ok, E. destruct st; reflexivity.
  - apply Forall_forall. intros l _ Hd. unfold block_line, not_directive in *.
    rewrite Hd. reflexivity.
Qed.

(** A block entered at level 1, holding an opening brace, a [#define], a
    blank line, two closing braces and a second [#preset], closed by
    [#EndPreset]. *)
Lemma preset_passthrough_witness :
  Forall not_endpreset
    [lit "  x = 1 {  "; lit " #define N 3"; []; lit (String "009" "}}");
     lit "#preset b"]
  /\ format_lines
       (lit "#preset a"
          :: [lit "  x = 1 {  "; lit " #define N 3"; [];
              lit (String "009" "}}"); lit "#preset b"]
          ++ [lit "#EndPreset"])
       (Fmt.mk [] 1 false false)
     = Ok (Fmt.mk
             [lit "#preset a"; lit "x = 1 {"; lit "#define N 3"; [];
              lit "}}"; lit "#preset b"; lit "#EndPreset"]
             1 false false).
Proof.
  assert (H : Forall not_endpreset
                [lit "  x = 1 {  "; lit " #define N 3"; [];
                 lit (String "009" "}}"); lit "#preset b"])
    by (repeat constructor; discriminate).
  split; [exact H|].
  exact (proj1 (preset_passthrough (Fmt.mk [] 1 false false)
                  (lit "#preset a") (lit "#EndPreset") _
                  eq_refl eq_refl H)).
Defined.

(** * Further properties of the formatter *)

(** ** What formatting keeps *)

Section Contents.

Lemma drop_while_app_keep (p : ascii -> bool) (a b : str) :
  drop_while p a <> [] -> drop_while p (a ++ b) = drop_while p a ++ b.
Proof.
  induction a as [|c a IH]; simpl; [contradiction|].
  destruct (p c); auto.
Qed.

Lemma strip_app_space_r (a ws : str) :
  forallb isspace ws = true -> strip (a ++ ws) = strip a.
Proof.
  intros H. unfold strip, lstrip, rstrip.
  destruct (drop_while isspace a) as [|c r] eqn:E.
  - apply drop_while_nil_all in E.
    rewrite drop_while_all; [reflexivity|].
    rewrite forallb_app, E, H. reflexivity.
  - rewrite drop_while_app_keep by (rewrite E; discriminate).
    rewrite E. apply rstrip_by_app_all, H.
Qed.

Lemma strip_rstrip_space_tab (l : str) : strip (rstrip_space_tab l) = strip l.
Proof.
  destruct (rstrip_by_split is_space_or_tab l) as (ws & E & A).
  rewrite E at 2. symmetry. apply strip_app_space_r.
  rewrite forallb_forall in *. intros c Hc. apply space_tab_isspace, A, Hc.
Qed.

Lemma line_step_strip (m : mode) (l : str) :
  strip (fst (line_step m l)) = strip l.
Proof.
  rewrite <- (strip_rstrip_space_tab l). unfold line_step.
  destruct (str_eqb _ []) eqn:Hb.
  { apply str_eqb_eq in Hb. rewrite Hb. reflexivity. }
  destruct (startswith _ [HASH]); [apply strip_idem|].
  destruct (preset m); [apply strip_lstrip|].
  destruct (brace_stats _ _) as [[delta lc] next]. cbn [fst].
  rewrite strip_app_space, strip_lstrip by apply repeat_str_space.
  reflexivity.
Qed.

Lemma emit_lines_strip (ls : list str) :
  forall m, map strip (fst (emit_lines ls m)) = map strip ls.
Proof.
  induction ls as [|l ls IH]; intros m; simpl; auto.
  pose proof (line_step_strip m l) as H.
  destruct (line_step m l) as [o m'].
  specialize (IH m'). destruct (emit_lines ls m') as [os m''].
  cbn [fst map] in *. rewrite H, IH. reflexivity.
Qed.

Lemma squeeze_contents (ls : list str) :
  forall lb,
    filter nonblank (map strip (squeeze lb ls))
    = filter nonblank (map strip ls).
Proof.
  induction ls as [|x ls IH]; intros lb; simpl; auto.
  destruct (str_eqb x []) eqn:Hx.
  - apply str_eqb_eq in Hx. subst x. destruct lb; simpl; apply IH.
  - simpl. rewrite IH. reflexivity.
Qed.

Lemma pop_contents (ls : list str) :
  filter nonblank (map strip (pop_trailing_blank ls))
  = filter nonblank (map strip ls).
Proof.
  induction ls as [|x ls IH] using rev_ind; [reflexivity|].
  destruct (list_eq_dec ascii_dec x []) as [-> | Hx].
  - rewrite pop_snoc_blank, IH, map_app, filter_app. simpl.
    rewrite app_nil_r. reflexivity.
  - rewrite pop_snoc_keep by exact Hx. reflexivity.
Qed.

Lemma collapse_contents (ls : list str) :
  filter nonblank (map strip (collapse_blank_lines ls))
  = filter nonblank (map strip ls).
Proof.
  rewrite collapse_blank_lines_eq, pop_contents. apply squeeze_contents.
Qed.

Lemma output_text_lines (text : str) :
  split_lines (normalize_newlines (format_text text))
  = match output_lines text with [] => [[]] | ls => ls end ++ [[]].
Proof.
  pose proof (output_lines_inline text) as Hin. unfold format_text.
  rewrite normalize_newlines_id.
  2:{ apply Forall_app. split; [|repeat constructor; discriminate].
      apply join_lines_chars; [discriminate|].
      eapply Forall_impl; [|exact Hin]. intros l Hl.
      eapply Forall_impl; [|exact Hl]. intros c [_ H]. exact H. }
  rewrite split_join_newline; [destruct (output_lines text); reflexivity|].
  eapply Forall_impl; [|exact Hin]. intros l Hl.
  eapply Forall_impl; [|exact Hl]. intros c [H _]. exact H.
Qed.

End Contents.

(** X1. Formatting changes whitespace only: the non-blank lines of the
    result, each without the whitespace around it, are those of the input,
    in the same order. *)
Theorem format_keeps_contents (T : str) :
  exists o,
    format_frag_text T = Ok o /\ nonblank_contents o = nonblank_contents T.
Proof.
  exists (format_text T). split; [apply format_frag_text_ok|].
  unfold nonblank_contents at 1. rewrite output_text_lines.
  assert (E : filter nonblank (map strip (output_lines T))
              = nonblank_contents T).
  { unfold output_lines. rewrite collapse_contents, emit_lines_strip.
    reflexivity. }
  rewrite <- E. destruct (output_lines T) as [|l ls].
  - reflexivity.
  - rewrite map_app, filter_app. simpl. rewrite app_nil_r. reflexivity.
Qed.

(** ** Trailing whitespace and carriage returns *)

Lemma line_step_rstrip (m : mode) (l : str) :
  rstrip_space_tab (fst (line_step m l)) = fst (line_step m l).
Proof.
  unfold line_step.
  destruct (str_eqb _ []) eqn:Hb; [reflexivity|].
  apply str_eqb_neq in Hb.
  destruct (startswith _ [HASH]); [apply rstrip_space_tab_strip|].
  destruct (preset m); [apply rstrip_space_tab_lstrip, Hb|].
  destruct (brace_stats _ _) as [[delta lc] next]. cbn [fst].
  apply rstrip_space_tab_indent.
  - apply rstrip_space_tab_lstrip, Hb.
  - apply nonblank_lstrip, Hb.
Qed.

Lemma emit_lines_rstrip (ls : list str) :
  forall m,
    Forall (fun o => rstrip_space_tab o = o) (fst (emit_lines ls m)).
Proof.
  induction ls as [|l ls IH]; intros m; simpl; auto.
  pose proof (line_step_rstrip m l) as H.
  destruct (line_step m l) as [o m'].
  specialize (IH m'). destruct (emit_lines ls m') as [os m''].
  cbn [fst] in *. constructor; auto.
Qed.

(** X2. The result holds no carriage return, and none of its lines ends
    with a space or a tab. *)
Theorem format_no_trailing_space (T : str) :
  exists o,
    format_frag_text T = Ok o
    /\ Forall not_cr o
    /\ Forall (fun l => rstrip_space_tab l = l) (split_lines o).
Proof.
  exists (format_text T). split; [apply format_frag_text_ok|].
  pose proof (output_lines_inline T) as Hin.
  assert (Hcr : Forall not_cr (format_text T)).
  { unfold format_text. apply Forall_app.
    split; [|repeat constructor; discriminate].
    apply join_lines_chars; [discriminate|].
    eapply Forall_impl; [|exact Hin]. intros l Hl.
    eapply Forall_impl; [|exact Hl]. intros c [_ H]. exact H. }
  split; [exact Hcr|].
  rewrite <- (normalize_newlines_id (format_text T)) by exact Hcr.
  rewrite output_text_lines.
  assert (H : Forall (fun l => rstrip_space_tab l = l) (output_lines T)).
  { unfold output_lines. eapply incl_Forall; [apply collapse_incl|].
    apply emit_lines_rstrip. }
  apply Forall_app. split; [|repeat constructor].
  destruct (output_lines T); [repeat constructor | exact H].
Qed.

(** ** Line ends *)

Section LineEnds.

Lemma replace_crlf_cons2 (c d : ascii) (s : str) :
  replace_crlf (c :: d :: s)
  = if Ascii.eqb c CR && Ascii.eqb d LF then LF :: replace_crlf s
    else c :: replace_crlf (d :: s).
Proof. reflexivity. Qed.

Lemma replace_crlf_length_aux (s : str) :
  length (replace_crlf s) <= length s
  /\ forall c, length (replace_crlf (c :: s)) <= length (c :: s).
Proof.
  induction s as [|d s [IH1 IH2]].
  - split; simpl; auto.
  - split; [apply IH2|].
    intros c. rewrite replace_crlf_cons2.
    destruct (Ascii.eqb c CR && Ascii.eqb d LF).
    + cbn [length]. lia.
    + specialize (IH2 d). cbn [length] in *. lia.
Qed.

Lemma replace_crlf_no_lf (s : str) :
  Forall not_lf s -> replace_crlf s = s.
Proof.
  induction 1 as [|c s Hc Hs IH]; [reflexivity|].
  cbn [replace_crlf]. destruct s as [|d s']; [reflexivity|].
  inversion Hs as [|? ? Hd _]; subst.
  replace (Ascii.eqb d LF) with false
    by (symmetry; apply Ascii.eqb_neq, Hd).
  rewrite andb_false_r, IH. reflexivity.
Qed.

Lemma replace_crlf_to_crlf (s : str) :
  Forall not_cr s -> replace_crlf (to_crlf s) = s.
Proof.
  induction 1 as [|c s Hc Hs IH]; [reflexivity|].
  unfold to_crlf in *. cbn [flat_map].
  destruct (Ascii.eqb c LF) eqn:E.
  - apply Ascii.eqb_eq in E. subst c. cbn [app replace_crlf].
    rewrite IH. reflexivity.
  - cbn [app replace_crlf].
    replace (Ascii.eqb c CR) with false
      by (symmetry; apply Ascii.eqb_neq, Hc).
    rewrite IH.
    destruct (flat_map _ s) eqn:F; [|reflexivity].
    rewrite <- IH. reflexivity.
Qed.

Lemma to_cr_no_lf (s : str) : Forall not_lf (to_cr s).
Proof.
  unfold to_cr. apply Forall_map, Forall_forall. intros c _.
  destruct (Ascii.eqb c LF) eqn:E; [discriminate|].
  apply Ascii.eqb_neq, E.
Qed.

Lemma replace_cr_to_cr (s : str) :
  Forall not_cr s -> replace_cr (to_cr s) = s.
Proof.
  induction 1 as [|c s Hc Hs IH]; [reflexivity|].
  unfold replace_cr, to_cr in *. cbn [map]. rewrite IH. f_equal.
  destruct (Ascii.eqb c LF) eqn:E.
  - apply Ascii.eqb_eq in E. subst c. reflexivity.
  - replace (Ascii.eqb c CR) with false
      by (symmetry; apply Ascii.eqb_neq, Hc).
    reflexivity.
Qed.

End LineEnds.

(** X3. [normalize_newlines] returns a text without carriage returns that
    is no longer than its argument, and applying it again changes
    nothing. *)
Theorem normalize_newlines_canonical (text : str) :
  Forall not_cr (normalize_newlines text)
  /\ normalize_newlines (normalize_newlines text) = normalize_newlines text
  /\ length (normalize_newlines text) <= length text.
Proof.
  split; [apply normalize_newlines_no_cr|]. split.
  - apply normalize_newlines_id, normalize_newlines_no_cr.
  - unfold normalize_newlines, replace_cr. rewrite length_map.
    apply replace_crlf_length_aux.
Qed.

(** X4. The formatter gives the same result whatever the line ends of the
    input: a text with Unix line ends, the same text with every line end
    written CR LF, and the same text with every line end written CR are
    formatted alike. *)
Theorem format_line_end_independent (T : str) :
  Forall not_cr T ->
  format_frag_text (to_crlf T) = format_frag_text T
  /\ format_frag_text (to_cr T) = format_frag_text T.
Proof.
  intros H.
  assert (E1 : normalize_newlines (to_crlf T) = normalize_newlines T).
  { rewrite (normalize_newlines_id T) by exact H.
    unfold normalize_newlines. rewrite replace_crlf_to_crlf by exact H.
    apply replace_cr_id, H. }
  assert (E2 : normalize_newlines (to_cr T) = normalize_newlines T).
  { rewrite (normalize_newlines_id T) by exact H.
    unfold normalize_newlines. rewrite replace_crlf_no_lf by apply to_cr_no_lf.
    apply replace_cr_to_cr, H. }
  unfold format_frag_text. rewrite E1, E2. auto.
Qed.

(** Two lines, the second one indented by hand. *)
Lemma format_line_end_independent_witness :
  Forall not_cr (lit "a {" ++ [LF] ++ lit " b" ++ [LF])
  /\ format_frag_text (lit "a {" ++ [CR; LF] ++ lit " b" ++ [CR; LF])
     = format_frag_text (lit "a {" ++ [LF] ++ lit " b" ++ [LF])
  /\ format_frag_text (lit "a {" ++ [CR] ++ lit " b" ++ [CR])
     = format_frag_text (lit "a {" ++ [LF] ++ lit " b" ++ [LF]).
Proof.
  assert (H : Forall not_cr (lit "a {" ++ [LF] ++ lit " b" ++ [LF]))
    by (repeat constructor; discriminate).
  split; [exact H|].
  exact (format_line_end_independent _ H).
Defined.

(** ** [collapse_blank_lines] *)

Lemma filter_nonblank_squeeze (ls : list str) :
  forall lb, filter nonblank (squeeze lb ls) = filter nonblank ls.
Proof.
  induction ls as [|x ls IH]; intros lb; simpl; auto.
  unfold nonblank at 2. destruct (str_eqb x []) eqn:Hx.
  - destruct lb; simpl; apply IH.
  - simpl. unfold nonblank at 1. rewrite Hx. simpl. rewrite IH. reflexivity.
Qed.

Lemma filter_nonblank_pop (ls : list str) :
  filter nonblank (pop_trailing_blank ls) = filter nonblank ls.
Proof.
  induction ls as [|x ls IH] using rev_ind; [reflexivity|].
  destruct (list_eq_dec ascii_dec x []) as [-> | Hx].
  - rewrite pop_snoc_blank, IH, filter_app. simpl.
    rewrite app_nil_r. reflexivity.
  - rewrite pop_snoc_keep by exact Hx. reflexivity.
Qed.

Lemma squeeze_length (ls : list str) :
  forall lb, length (squeeze lb ls) <= length ls.
Proof.
  induction ls as [|x ls IH]; intros lb; simpl; auto.
  pose proof (IH true). pose proof (IH false).
  destruct (str_eqb x []); [destruct lb|]; simpl; lia.
Qed.

(** X5. [collapse_blank_lines] removes empty lines only (the other lines
    are kept, in order), its result is no longer than its argument, and
    collapsing a second time changes nothing. *)
Theorem collapse_blank_lines_keeps (lines : list str) :
  filter nonblank (collapse_blank_lines lines) = filter nonblank lines
  /\ length (collapse_blank_lines lines) <= length lines
  /\ collapse_blank_lines (collapse_blank_lines lines)
     = collapse_blank_lines lines.
Proof.
  split; [|split].
  - rewrite collapse_blank_lines_eq, filter_nonblank_pop.
    apply filter_nonblank_squeeze.
  - rewrite collapse_blank_lines_eq.
    destruct (pop_split (squeeze true lines)) as (t & E).
    pose proof (squeeze_length lines true) as H.
    rewrite E in H. rewrite length_app in H. lia.
  - apply collapse_fix, collapse_collapsed.
Qed.

(** ** What the scanner returns *)

Section Projection.

Lemma subseq_tail_drop (line : str) :
  forall code,
    (forall c, subseq (c :: code) line = true -> subseq code line = true)
    /\ (forall d, subseq code line = true -> subseq code (d :: line) = true).
Proof.
  induction line as [|e l IH]; intros code.
  - split; [discriminate|].
    intros d H. destruct code; [reflexivity | discriminate].
  - assert (Ht : forall c,
               subseq (c :: code) (e :: l) = true ->
               subseq code (e :: l) = true).
    { intros c H. cbn [subseq] in H. apply (proj2 (IH code)).
      destruct (Ascii.eqb c e); [exact H|].
      apply (proj1 (IH code) c), H. }
    split; [exact Ht|].
    intros d H. destruct code as [|c code']; [reflexivity|].
    cbn [subseq]. destruct (Ascii.eqb c d); [|exact H].
    clear Ht. cbn [subseq] in H. apply (proj2 (IH code')).
    destruct (Ascii.eqb c e); [exact H|].
    apply (proj1 (IH code') c), H.
Qed.

Lemma subseq_select (keep : region -> bool) (s : str) :
  forall rs, subseq (select keep s rs) s = true.
Proof.
  induction s as [|c s IH]; intros rs; [destruct rs; reflexivity|].
  destruct rs as [|r rs]; [reflexivity|]. cbn [select].
  destruct (keep r).
  - cbn [subseq]. rewrite Ascii.eqb_refl. apply IH.
  - apply subseq_tail_drop, IH.
Qed.

Lemma select_length (keep : region -> bool) (s : str) :
  forall rs, length (select keep s rs) <= length s.
Proof.
  induction s as [|c s IH]; intros rs; [destruct rs; simpl; lia|].
  destruct rs as [|r rs]; [simpl; lia|]. cbn [select].
  specialize (IH rs). destruct (keep r); simpl; lia.
Qed.

Lemma count_char_nonneg (c : ascii) (s : str) : (0 <= count_char c s)%Z.
Proof.
  induction s as [|x s IH]; cbn [count_char]; [lia|].
  destruct (Ascii.eqb x c); lia.
Qed.

Lemma count_char_select (keep : region -> bool) (c : ascii) (s : str) :
  forall rs, (count_char c (select keep s rs) <= count_char c s)%Z.
Proof.
  induction s as [|x s IH]; intros rs; [destruct rs; simpl; lia|].
  destruct rs as [|r rs].
  - pose proof (count_char_nonneg c (x :: s)). cbn [select count_char] in *. lia.
  - cbn [select]. specialize (IH rs).
    destruct (keep r); cbn [count_char]; destruct (Ascii.eqb x c); lia.
Qed.

Lemma count_char_drop_while (p : ascii -> bool) (c : ascii) (s : str) :
  (count_char c (drop_while p s) <= count_char c s)%Z.
Proof.
  induction s as [|x s IH]; cbn [drop_while count_char]; [lia|].
  destruct (p x); cbn [count_char]; destruct (Ascii.eqb x c); lia.
Qed.

Lemma count_leading_close_bounds (s : str) :
  (0 <= count_leading_close s <= count_char RBRACE s)%Z.
Proof.
  induction s as [|x s IH]; cbn [count_leading_close count_char]; [lia|].
  pose proof (count_char_nonneg RBRACE s).
  destruct (Ascii.eqb x RBRACE); lia.
Qed.

Lemma scan_chars_plain (s : str) :
  Forall (fun c => c <> SLASH) s ->
  forall q esc, scan_chars false q esc s = (s, false).
Proof.
  induction 1 as [|c s Hc Hs IH]; intros q esc; [reflexivity|].
  assert (E : Ascii.eqb c SLASH = false) by (apply Ascii.eqb_neq, Hc).
  cbn [scan_chars]. destruct q as [d|].
  - destruct esc; [|destruct (Ascii.eqb c BACKSLASH);
                     [|destruct (Ascii.eqb c d)]];
      rewrite IH; reflexivity.
  - destruct (Ascii.eqb c SQUOTE || Ascii.eqb c DQUOTE).
    + rewrite IH. reflexivity.
    + rewrite E. cbn [andb]. destruct s; rewrite IH; reflexivity.
Qed.

End Projection.

(** X6. What [strip_comments_for_braces] returns is the line with some of
    its characters left out: the scanner adds and reorders nothing, and
    the projection is no longer than the line. *)
Theorem projection_is_subsequence (line : str) (b : bool) :
  exists code next,
    strip_comments_for_braces line b = Ok (code, next)
    /\ subseq code line = true
    /\ length code <= length line.
Proof.
  exists (fst (scan_line line b)), (snd (scan_line line b)).
  rewrite <- surjective_pairing. split; [apply strip_comments_for_braces_ok|].
  rewrite scan_line_outside_comments. split.
  - apply subseq_select.
  - apply select_length.
Qed.

(** X7. A line without any slash, scanned outside a block comment, is
    returned whole, quotes and all, and leaves the scanner outside a block
    comment. *)
Theorem slash_free_line_projection (line : str) :
  Forall (fun c => c <> SLASH) line ->
  strip_comments_for_braces line false = Ok (line, false).
Proof.
  intros H. rewrite strip_comments_for_braces_ok. unfold scan_line.
  rewrite scan_chars_plain by exact H. reflexivity.
Qed.

(** An unterminated string with a brace in it. *)
Lemma slash_free_line_projection_witness :
  Forall (fun c => c <> SLASH) (lit "s = 'a{")
  /\ strip_comments_for_braces (lit "s = 'a{") false
     = Ok (lit "s = 'a{", false).
Proof.
  assert (H : Forall (fun c => c <> SLASH) (lit "s = 'a{"))
    by (repeat constructor; discriminate).
  split; [exact H | exact (slash_free_line_projection _ H)].
Defined.

(** X8. The brace statistics of a line do not depend on the whitespace it
    starts with: the indentation of the input has no influence on the
    delta, on the leading-close count and on the block-comment flag. *)
Theorem line_brace_stats_leading_space (ws line : str) (b : bool) :
  forallb isspace ws = true ->
  line_brace_stats (ws ++ line) b = line_brace_stats line b.
Proof.
  intros H. rewrite !line_brace_stats_ok, brace_stats_space by exact H.
  reflexivity.
Qed.

(** A tab, a no-break space and two spaces before [} else {]. *)
Lemma line_brace_stats_leading_space_witness :
  forallb isspace (TAB :: "160"%char :: lit "  ") = true
  /\ line_brace_stats ((TAB :: "160"%char :: lit "  ") ++ lit "} else {") false
     = line_brace_stats (lit "} else {") false.
Proof.
  split; [reflexivity|].
  exact (line_brace_stats_leading_space
           (TAB :: "160"%char :: lit "  ") (lit "} else {") false eq_refl).
Defined.

(** X9. The leading-close count of a line is at least 0 and at most the
    number of [}] in the line, and the delta lies between minus the number
    of [}] and the number of [{] in the line. *)
Theorem line_brace_stats_bounds (line : str) (b : bool) :
  exists delta leading_close next,
    line_brace_stats line b = Ok (delta, leading_close, next)
    /\ (0 <= leading_close <= count_char RBRACE line)%Z
    /\ (- count_char RBRACE line <= delta <= count_char LBRACE line)%Z.
Proof.
  rewrite line_brace_stats_ok. unfold brace_stats.
  pose proof (scan_line_outside_comments line b) as E.
  destruct (scan_line line b) as [code next]. cbn [fst] in E.
  exists (count_char LBRACE code - count_char RBRACE code)%Z,
         (count_leading_close (lstrip code)), next.
  split; [reflexivity|].
  pose proof (count_leading_close_bounds (lstrip code)).
  pose proof (count_char_drop_while isspace RBRACE code).
  fold (lstrip code) in *.
  pose proof (count_char_nonneg LBRACE code).
  pose proof (count_char_nonneg RBRACE code).
  assert (count_char LBRACE code <= count_char LBRACE line)%Z
    by (rewrite E; apply count_char_select).
  assert (count_char RBRACE code <= count_char RBRACE line)%Z
    by (rewrite E; apply count_char_select).
  lia.
Qed.

(** ** Indentation *)

Section Indentation.

Lemma replace_crlf_chars_aux (P : ascii -> Prop) (s : str) :
  P LF ->
  (Forall P s -> Forall P (replace_crlf s))
  /\ (forall c, Forall P (c :: s) -> Forall P (replace_crlf (c :: s))).
Proof.
  intros HP. induction s as [|d s [IH1 IH2]].
  - split; auto.
  - split; [apply IH2|].
    intros c H. rewrite replace_crlf_cons2.
    inversion H as [|? ? Hc Hds]; subst.
    inversion Hds as [|? ? Hd Hs]; subst.
    destruct (Ascii.eqb c CR && Ascii.eqb d LF); constructor; auto.
Qed.

Lemma normalize_newlines_chars (P : ascii -> Prop) (s : str) :
  P LF -> Forall P s -> Forall P (normalize_newlines s).
Proof.
  intros HP H. apply (replace_crlf_chars_aux P s HP) in H.
  unfold normalize_newlines, replace_cr. apply Forall_map.
  eapply Forall_impl; [|exact H]. intros c Hc.
  destruct (Ascii.eqb c CR); auto.
Qed.

Lemma count_char_absent (c : ascii) (s : str) :
  Forall (fun x => x <> c) s -> count_char c s = 0%Z.
Proof.
  induction 1 as [|x s Hx Hs IH]; [reflexivity|].
  cbn [count_char]. rewrite IH.
  replace (Ascii.eqb x c) with false by (symmetry; apply Ascii.eqb_neq, Hx).
  reflexivity.
Qed.

Lemma brace_stats_bounds (line : str) (b : bool) :
  let '(delta, lc, _) := brace_stats line b in
  (0 <= lc)%Z /\ (delta <= count_char LBRACE line)%Z.
Proof.
  unfold brace_stats.
  pose proof (scan_line_outside_comments line b) as E.
  destruct (scan_line line b) as [code next]. cbn [fst] in E.
  pose proof (count_leading_close_bounds (lstrip code)).
  pose proof (count_char_nonneg RBRACE code).
  assert (count_char LBRACE code <= count_char LBRACE line)%Z
    by (rewrite E; apply count_char_select).
  lia.
Qed.

(** Without an opening brace the level stays 0 and lines start at column
    zero. *)
Lemma line_step_flush (m : mode) (l : str) :
  level m = 0%Z ->
  Forall (fun c => c <> LBRACE) l ->
  lstrip (fst (line_step m l)) = fst (line_step m l)
  /\ level (snd (line_step m l)) = 0%Z.
Proof.
  intros Hm Hl. unfold line_step.
  destruct (str_eqb _ []); [auto|].
  destruct (startswith _ [HASH]).
  { split; [apply lstrip_strip|].
    destruct (startswith _ (lit "#preset ")); [exact Hm|].
    destruct (str_eqb _ (lit "#endpreset")); exact Hm. }
  destruct (preset m).
  { split; [apply drop_while_idem | exact Hm]. }
  pose proof (brace_stats_bounds (rstrip_space_tab l) (block m)) as B.
  destruct (brace_stats _ _) as [[delta lc] next]. destruct B as [B1 B2].
  rewrite count_char_absent in B2
    by (eapply incl_Forall; [apply rstrip_by_incl | exact Hl]).
  cbn [fst snd level]. rewrite Hm.
  replace (Z.max (0 - lc) 0) with 0%Z by lia.
  replace (Z.max (0 + delta) 0) with 0%Z by lia.
  split; [apply drop_while_idem | reflexivity].
Qed.

Lemma emit_lines_flush (ls : list str) :
  forall m,
    level m = 0%Z ->
    Forall (Forall (fun c => c <> LBRACE)) ls ->
    Forall (fun o => lstrip o = o) (fst (emit_lines ls m)).
Proof.
  induction ls as [|l ls IH]; intros m Hm H; simpl; auto.
  inversion H as [|? ? Hl Hls]; subst.
  destruct (line_step_flush m l Hm Hl) as [H1 H2].
  destruct (line_step m l) as [o m'].
  specialize (IH m' H2 Hls). destruct (emit_lines ls m') as [os m''].
  cbn [fst] in *. constructor; auto.
Qed.

Lemma line_step_directive_column (m : mode) (l : str) :
  startswith (strip (fst (line_step m l))) [HASH] = true ->
  startswith (fst (line_step m l)) [HASH] = true.
Proof.
  rewrite line_step_strip, <- strip_rstrip_space_tab. unfold line_step.
  intros H. destruct (str_eqb _ []) eqn:Hb.
  { apply str_eqb_eq in Hb. rewrite Hb in H. discriminate. }
  rewrite H. exact H.
Qed.

Lemma blank_line_stats (line : str) (b : bool) :
  strip line = [] -> brace_stats line b = (0%Z, 0%Z, b).
Proof.
  intros H. apply strip_nil_lstrip, drop_while_nil_all in H.
  rewrite <- (app_nil_r line), brace_stats_space by exact H. reflexivity.
Qed.

End Indentation.

Lemma output_lines_not_lf (T : str) : Forall (Forall not_lf) (output_lines T).
Proof.
  eapply Forall_impl; [|apply output_lines_inline]. intros l Hl.
  eapply Forall_impl; [|exact Hl]. intros x [H _]. exact H.
Qed.

(** X10. A text without any opening brace comes out flush left: the result
    is the join of its lines, none of which holds a newline or starts with
    whitespace. *)
Theorem format_without_open_brace (T : str) :
  Forall (fun c => c <> LBRACE) T ->
  exists ls,
    format_frag_text T = Ok (join_lines ls ++ [LF])
    /\ Forall (Forall not_lf) ls
    /\ Forall (fun l => lstrip l = l) ls.
Proof.
  intros H. exists (output_lines T). split; [apply format_frag_text_ok|].
  split; [apply output_lines_not_lf|].
  unfold output_lines. eapply incl_Forall; [apply collapse_incl|].
  apply emit_lines_flush; [reflexivity|].
  apply (normalize_newlines_chars (fun c => c <> LBRACE)) in H;
    [|discriminate].
  eapply Forall_impl; [|apply (split_lines_chars _ _ H)].
  intros l Hl. eapply Forall_impl; [|exact Hl]. intros c [Hc _]. exact Hc.
Qed.

(** Indented statements and an unmatched closing brace. *)
Lemma format_without_open_brace_witness :
  Forall (fun c => c <> LBRACE) (unlines ["   a;"; "  }"; " b;"]%string)
  /\ exists ls,
       format_frag_text (unlines ["   a;"; "  }"; " b;"]%string)
       = Ok (join_lines ls ++ [LF])
       /\ Forall (Forall not_lf) ls
       /\ Forall (fun l => lstrip l = l) ls.
Proof.
  assert (H : Forall (fun c => c <> LBRACE)
                (unlines ["   a;"; "  }"; " b;"]%string))
    by (repeat constructor; discriminate).
  split; [exact H | exact (format_without_open_brace _ H)].
Defined.

(** X11. Directives are never indented: the result is the join of its
    lines, none of which holds a newline, and a line whose first character
    after whitespace is [#] has it at column zero, whatever the nesting and
    whether it lies in a preset block or a comment. *)
Theorem format_directives_at_column_zero (T : str) :
  exists ls,
    format_frag_text T = Ok (join_lines ls ++ [LF])
    /\ Forall (Forall not_lf) ls
    /\ Forall (fun l => startswith (strip l) [HASH] = true ->
                        startswith l [HASH] = true) ls.
Proof.
  exists (output_lines T). split; [apply format_frag_text_ok|].
  split; [apply output_lines_not_lf|].
  unfold output_lines. eapply incl_Forall; [apply collapse_incl|].
  generalize init_mode.
  induction (split_lines (normalize_newlines T)) as [|l ls IH]; intros m;
    simpl; auto.
  pose proof (line_step_directive_column m l) as H.
  destruct (line_step m l) as [o m'].
  specialize (IH m'). destruct (emit_lines ls m') as [os m''].
  cbn [fst] in *. constructor; auto.
Qed.

(** X12. A block comes back to the level it started from: when a code line
    opens [d] more braces than it closes and starts with none closing, and
    the next code line starts with [d] closing braces and closes [d] more
    than it opens, both lines are emitted at the level before the first,
    and that is the level after the second. *)
Theorem brace_block_dedent (st : Fmt.state) (opening closing : str)
    (d : Z) (b1 b2 : bool) :
  Fmt.in_preset st = false ->
  (0 <= Fmt.indent_level st)%Z ->
  (0 < d)%Z ->
  not_directive opening ->
  not_directive closing ->
  line_brace_stats (rstrip_space_tab opening) (Fmt.in_block_comment st)
  = Ok (d, 0%Z, b1) ->
  line_brace_stats (rstrip_space_tab closing) b1 = Ok ((- d)%Z, d, b2) ->
  format_lines [opening; closing] st
  = Ok (Fmt.mk
          (Fmt.out st
           ++ [str_mul INDENT (Fmt.indent_level st)
               ++ lstrip (rstrip_space_tab opening);
               str_mul INDENT (Fmt.indent_level st)
               ++ lstrip (rstrip_space_tab closing)])
          (Fmt.indent_level st) false b2).
Proof.
  intros Hp Hl Hd Ho Hc So Sc.
  rewrite line_brace_stats_ok in So, Sc.
  injection So as So. injection Sc as Sc.
  assert (No : forall line b dd lc nx,
             brace_stats line b = (dd, lc, nx) -> dd <> 0%Z ->
             str_eqb (strip line) [] = false).
  { intros line b dd lc nx E Hdd. apply str_eqb_neq. intros Hb.
    rewrite (blank_line_stats line b Hb) in E. congruence. }
  destruct st as [out lvl pre blk].
  cbn [Fmt.in_preset Fmt.indent_level Fmt.in_block_comment Fmt.out] in *.
  subst pre.
  assert (E : emit_lines [opening; closing] (Mode lvl false blk)
              = ([str_mul INDENT lvl ++ lstrip (rstrip_space_tab opening);
                  str_mul INDENT lvl ++ lstrip (rstrip_space_tab closing)],
                 Mode lvl false b2)).
  { unfold not_directive in Ho, Hc.
    cbn [emit_lines]. unfold line_step. cbn [level preset block].
    rewrite (No _ _ _ _ _ So) by lia. rewrite Ho, So.
    cbn [level preset block].
    rewrite (No _ _ _ _ _ Sc) by lia. rewrite Hc, Sc.
    replace (Z.max (lvl - 0) 0) with lvl by lia.
    replace (Z.max (Z.max (lvl + d) 0 - d) 0) with lvl by lia.
    replace (Z.max (Z.max (lvl + d) 0 + - d) 0) with lvl by lia.
    reflexivity. }
  rewrite format_lines_ok.
  change (mode_of (Fmt.mk out lvl false blk)) with (Mode lvl false blk).
  rewrite E. reflexivity.
Qed.

(** At level 1: [if (x) {  // open] and [} // close]. *)
Lemma brace_block_dedent_witness :
  format_lines [lit "if (x) {  // open"; lit "   } // close"]
    (Fmt.mk [] 1 false false)
  = Ok (Fmt.mk [lit "  if (x) {  // open"; lit "  } // close"] 1 false false).
Proof.
  refine (brace_block_dedent (Fmt.mk [] 1 false false)
            (lit "if (x) {  // open") (lit "   } // close") 1 false false
            eq_refl _ _ eq_refl eq_refl eq_refl eq_refl).
  - cbn. lia.
  - lia.
Defined.

(** ** Files *)

Section Files.

Lemma format_text_no_cr (text : str) : Forall not_cr (format_text text).
Proof.
  pose proof (output_lines_inline text) as Hin.
  unfold format_text. apply Forall_app.
  split; [|repeat constructor; discriminate].
  apply join_lines_chars; [discriminate|].
  eapply Forall_impl; [|exact Hin]. intros l Hl.
  eapply Forall_impl; [|exact Hl]. intros c [_ H]. exact H.
Qed.

(** A formatted text is one that formatting does not change. *)
Lemma format_text_fixed (text : str) :
  format_frag_text (format_text text)
  = Ok (normalize_newlines (format_text text)).
Proof.
  rewrite format_frag_text_ok, normalize_newlines_id
    by apply format_text_no_cr.
  unfold format_text at 1 3. rewrite output_lines_format_text. reflexivity.
Qed.

Lemma write_text_same (st : store) (p : path) (text : str) :
  write_text st p text p = Some text.
Proof. unfold write_text. rewrite str_eqb_refl. reflexivity. Qed.

Lemma write_text_other (st : store) (p q : path) (text : str) :
  q <> p -> write_text st p text q = st q.
Proof.
  intros H. unfold write_text. apply str_eqb_neq in H. rewrite H. reflexivity.
Qed.

Lemma format_file_formatted (st : store) (p : path) (write : bool) :
  is_formatted st p -> format_file st p write = Returns (false, st).
Proof.
  intros (text & E & F). unfold format_file. rewrite E, F, str_eqb_refl.
  reflexivity.
Qed.

(** A writing call leaves the file formatted and the other files as
    formatted as they were. *)
Lemma format_file_write (st : store) (p : path) (changed : bool)
    (st' : store) :
  format_file st p true = Returns (changed, st') ->
  is_formatted st' p
  /\ forall q, is_formatted st q -> is_formatted st' q.
Proof.
  unfold format_file. destruct (st p) as [original|] eqn:E; [|discriminate].
  rewrite format_frag_text_ok.
  destruct (str_eqb (format_text original) (normalize_newlines original))
    eqn:C; cbn [negb andb]; intros H; injection H as <- <-.
  - split; [|auto]. exists original. split; [exact E|].
    rewrite format_frag_text_ok. f_equal. apply str_eqb_eq, C.
  - assert (Hp : is_formatted (write_text st p (format_text original)) p).
    { exists (format_text original). split; [apply write_text_same|].
      apply format_text_fixed. }
    split; [exact Hp|].
    intros q Hq. destruct (list_eq_dec ascii_dec q p) as [-> | Hne];
      [exact Hp|].
    destruct Hq as (t & Et & Ft). exists t.
    rewrite write_text_other by exact Hne. auto.
Qed.

Lemma format_files_write (files : list path) :
  forall acc st changed_files st',
    format_files files true acc st = Returns (changed_files, st') ->
    (forall q, is_formatted st q -> is_formatted st' q)
    /\ Forall (is_formatted st') files.
Proof.
  induction files as [|p files IH]; intros acc st changed_files st' H.
  - injection H as _ <-. auto.
  - cbn [format_files] in H.
    destruct (format_file st p true) as [[c st1]|e] eqn:E; [|discriminate].
    destruct (format_file_write _ _ _ _ E) as [Hp Hq].
    destruct (IH _ _ _ _ H) as [K1 K2].
    split; [auto|]. constructor; auto.
Qed.

Lemma format_files_formatted (files : list path) (write : bool) :
  forall acc st,
    Forall (is_formatted st) files ->
    format_files files write acc st = Returns (acc, st).
Proof.
  induction files as [|p files IH]; intros acc st H; [reflexivity|].
  inversion H as [|? ? Hp Hf]; subst.
  cbn [format_files]. rewrite format_file_formatted by exact Hp.
  apply IH, Hf.
Qed.

Lemma format_files_check (files : list path) :
  forall acc st changed_files st',
    format_files files false acc st = Returns (changed_files, st') ->
    st' = st
    /\ (changed_files = acc -> Forall (is_formatted st) files)
    /\ exists more, changed_files = acc ++ more.
Proof.
  induction files as [|p files IH]; intros acc st changed_files st' H.
  - injection H as <- <-. repeat split; auto. exists []. rewrite app_nil_r.
    reflexivity.
  - cbn [format_files] in H. unfold format_file in H.
    destruct (st p) as [original|] eqn:E; [|discriminate].
    destruct (format_frag_text original) as [formatted| |] eqn:F;
      try discriminate.
    rewrite andb_false_r in H.
    destruct (str_eqb formatted (normalize_newlines original)) eqn:C;
      cbn [negb] in H; destruct (IH _ _ _ _ H) as (K1 & K2 & more & K3).
    + split; [exact K1|]. split; [|exists more; exact K3].
      intros Hc. constructor; [|auto].
      exists original. split; [exact E|]. rewrite F. f_equal.
      apply str_eqb_eq, C.
    + split; [exact K1|]. split.
      * intros Hc. exfalso. rewrite Hc, <- app_assoc in K3.
        apply (f_equal (@length path)) in K3.
        rewrite !length_app in K3. simpl in K3. lia.
      * exists ([p] ++ more). rewrite K3, <- app_assoc. reflexivity.
Qed.

End Files.

(** X13. After [format_file] has run with [write] on a readable file, the
    file is in its formatted form: a further call, writing or not, reports
    no change and leaves every file as it is. *)
Theorem format_file_settles (st : store) (p : path) (original : str) :
  st p = Some original ->
  exists changed st',
    format_file st p true = Returns (changed, st')
    /\ format_file st' p true = Returns (false, st')
    /\ format_file st' p false = Returns (false, st').
Proof.
  intros E.
  assert (H : exists changed st',
             format_file st p true = Returns (changed, st')).
  { unfold format_file. rewrite E, format_frag_text_ok. eauto. }
  destruct H as (changed & st' & H). exists changed, st'.
  destruct (format_file_write _ _ _ _ H) as [Hp _].
  split; [exact H|]. split; apply format_file_formatted, Hp.
Qed.

(** One file, with a line to indent. *)
Lemma format_file_settles_witness :
  exists changed st',
    format_file (fun _ => Some (unlines ["a {"; "b"; "}"]%string))
      (lit "x.frag") true
    = Returns (changed, st')
    /\ format_file st' (lit "x.frag") true = Returns (false, st')
    /\ format_file st' (lit "x.frag") false = Returns (false, st').
Proof.
  exact (format_file_settles
           (fun _ => Some (unlines ["a {"; "b"; "}"]%string))
           (lit "x.frag") _ eq_refl).
Defined.

(** X14. [format_file] touches one file at most: every other path holds
    after the call what it held before, and without [write] the store is
    the one given; the flag returned says whether the formatted text
    differs from the newline-normalized text of the file. *)
Theorem format_file_frame (st : store) (p : path) (write : bool)
    (changed : bool) (st' : store) :
  format_file st p write = Returns (changed, st') ->
  (forall q, q <> p -> st' q = st q)
  /\ (write = false -> st' = st)
  /\ (changed = false -> st' = st /\ is_formatted st p).
Proof.
  unfold format_file. destruct (st p) as [original|] eqn:E; [|discriminate].
  destruct (format_frag_text original) as [formatted| |] eqn:F;
    try discriminate.
  intros H. injection H as <- <-.
  destruct (str_eqb formatted (normalize_newlines original)) eqn:C;
    cbn [negb andb].
  - repeat split; auto. exists original. split; [exact E|].
    rewrite F. f_equal. apply str_eqb_eq, C.
  - destruct write; repeat split; auto; try discriminate.
    intros q Hq. apply write_text_other, Hq.
Qed.

(** A run that writes [x.frag] does not touch [y.frag]. *)
Lemma format_file_frame_witness :
  format_file two_files (lit "x.frag") true
  = Returns (true,
             write_text two_files (lit "x.frag")
               (unlines ["a {"; "  b"]%string))
  /\ write_text two_files (lit "x.frag") (unlines ["a {"; "  b"]%string)
       (lit "y.frag")
     = two_files (lit "y.frag").
Proof.
  assert (H : format_file two_files (lit "x.frag") true
              = Returns (true,
                         write_text two_files (lit "x.frag")
                           (unlines ["a {"; "  b"]%string)))
    by (vm_compute; reflexivity).
  split; [exact H|].
  refine (proj1 (format_file_frame _ _ _ _ _ H) (lit "y.frag") _).
  discriminate.
Defined.

(** X15. After a run of [main] with [--write] has returned, a run with
    [--check] on the same files returns exit code 0 and changes nothing;
    the writing run itself returns 0. *)
Theorem main_write_then_check (files : list path) (st : store)
    (code : Z) (st' : store) :
  main true false files st = Returns (code, st') ->
  code = 0%Z /\ main false true files st' = Returns (0%Z, st').
Proof.
  unfold main. cbn [andb]. destruct files as [|p files]; [discriminate|].
  destruct (format_files (p :: files) true [] st) as [[changed st1]|e] eqn:E;
    [|discriminate].
  intros H. injection H as <- <-. split; [reflexivity|].
  destruct (format_files_write _ _ _ _ _ E) as [_ K].
  rewrite format_files_formatted by exact K. reflexivity.
Qed.

(** Two files, the first one to be indented. *)
Lemma main_write_then_check_witness :
  main true false [lit "x.frag"; lit "y.frag"] two_files
  = Returns (0%Z,
             write_text two_files (lit "x.frag")
               (unlines ["a {"; "  b"]%string))
  /\ main false true [lit "x.frag"; lit "y.frag"]
       (write_text two_files (lit "x.frag") (unlines ["a {"; "  b"]%string))
     = Returns (0%Z,
                write_text two_files (lit "x.frag")
                  (unlines ["a {"; "  b"]%string)).
Proof.
  assert (H : main true false [lit "x.frag"; lit "y.frag"] two_files
              = Returns (0%Z,
                         write_text two_files (lit "x.frag")
                           (unlines ["a {"; "  b"]%string)))
    by (vm_compute; reflexivity).
  split; [exact H|].
  exact (proj2 (main_write_then_check _ _ _ _ H)).
Defined.

(** X16. A run of [main] with [--check] writes nothing, and its exit code
    is 0 exactly when every file is already formatted, and 1 otherwise. *)
Theorem main_check_reports (files : list path) (st : store)
    (code : Z) (st' : store) :
  main false true files st = Returns (code, st') ->
  st' = st
  /\ (code = 0%Z \/ code = 1%Z)
  /\ (code = 0%Z <-> Forall (is_formatted st) files).
Proof.
  unfold main. cbn [andb]. destruct files as [|p files]; [discriminate|].
  destruct (format_files (p :: files) false [] st) as [[changed st1]|e] eqn:E;
    [|discriminate].
  intros H. injection H as <- <-.
  destruct (format_files_check _ _ _ _ _ E) as (K1 & K2 & _).
  split; [exact K1|].
  destruct changed as [|c cs].
  - split; [auto|]. split; auto.
  - split; [auto|]. split; [discriminate|].
    intros Hf. rewrite format_files_formatted in E by exact Hf.
    discriminate.
Qed.

(** One file to indent and one formatted file: exit code 1, nothing
    written. *)
Lemma main_check_reports_witness :
  main false true [lit "x.frag"; lit "y.frag"] two_files
  = Returns (1%Z, two_files)
  /\ ~ Forall (is_formatted two_files) [lit "x.frag"; lit "y.frag"].
Proof.
  assert (H : main false true [lit "x.frag"; lit "y.frag"] two_files
              = Returns (1%Z, two_files))
    by (vm_compute; reflexivity).
  split; [exact H|].
  intros Hf.
  apply (proj2 (proj2 (main_check_reports _ _ _ _ H))) in Hf.
  discriminate Hf.
Defined.

(** * [start_server.py]: [build_command] *)

Section Decimal.

Lemma lit_inj (a b : string) : lit a = lit b -> a = b.
Proof.
  intros H. unfold lit in H.
  rewrite <- (string_of_list_ascii_of_string a),
          <- (string_of_list_ascii_of_string b), H.
  reflexivity.
Qed.

Lemma str_of_int_inj (n m : Z) : str_of_int n = str_of_int m -> n = m.
Proof.
  intros H. apply lit_inj in H. apply DecimalZ.to_int_inj.
  pose proof (DecimalString.NilEmpty.isi (Z.to_int n)) as E.
  rewrite H, DecimalString.NilEmpty.isi in E. congruence.
Qed.

End Decimal.

Section BuildCommand.

Import StartServer.

Example str_of_int_samples :
  str_of_int 4174 = lit "4174" /\ str_of_int 0 = lit "0"
  /\ str_of_int (-5) = lit "-5".
Proof. repeat split; vm_compute; reflexivity. Qed.

Lemma build_command_shape (a : args) :
  build_command a
  = [lit "npm"; lit "run"; lit "dev"; lit "--"; lit "--host"; host a]
    ++ match port a with
       | Some p => [lit "--port"; str_of_int p]
       | None => []
       end
    ++ (if open a then [lit "--open"] else [])
    ++ (if strict_port a then [lit "--strictPort"] else []).
Proof.
  unfold build_command.
  destruct (port a), (open a), (strict_port a); reflexivity.
Qed.

End BuildCommand.

(** X17. [build_command] loses nothing: two argument sets that give the
    same command have the same host, port, [open] and [strict_port]. *)
Theorem build_command_injective (a b : StartServer.args) :
  StartServer.build_command a = StartServer.build_command b -> a = b.
Proof.
  rewrite !build_command_shape.
  destruct a as [ha pa oa sa], b as [hb pb ob sb].
  cbn [StartServer.host StartServer.port StartServer.open
       StartServer.strict_port].
  intros H. cbn [app] in H. injection H as Hh H. subst hb.
  destruct pa as [p|], pb as [q|]; cbn [app] in H.
  - injection H as Hp H. apply str_of_int_inj in Hp. subst q.
    destruct oa, ob, sa, sb; cbn in H; try discriminate H; reflexivity.
  - exfalso. destruct ob, sb; cbn in H; discriminate H.
  - exfalso. destruct oa, sa; cbn in H; discriminate H.
  - destruct oa, ob, sa, sb; cbn in H; try discriminate H; reflexivity.
Qed.

(** The arguments of the test of the repository, and the command it
    expects. *)
Lemma build_command_injective_witness :
  StartServer.build_command
    (StartServer.Args (lit "0.0.0.0") (Some 5173%Z) true true)
  = [lit "npm"; lit "run"; lit "dev"; lit "--"; lit "--host"; lit "0.0.0.0";
     lit "--port"; lit "5173"; lit "--open"; lit "--strictPort"]
  /\ StartServer.Args (lit "0.0.0.0") (Some 5173%Z) true true
     = StartServer.Args (lit "0.0.0.0") (Some 5173%Z) true true.
Proof.
  split; [vm_compute; reflexivity|].
  exact (build_command_injective _ _ eq_refl).
Defined.

(** * [port_fragmentarium_3d.py] *)

(** ** Include names *)

Section IncludeNames.

Import Port.

Lemma collect_fold_get (names : list str) :
  forall acc key,
    match dict_get key
            (fold_left (fun mapping name => dict_set (lower name) name mapping)
                       names acc) with
    | Some v =>
        (In v names /\ lower v = key) \/ dict_get key acc = Some v
    | None =>
        existsb (fun x => str_eqb (lower x) key) names = false
        /\ dict_get key acc = None
    end.
Proof.
  induction names as [|n names IH]; intros acc key; cbn [fold_left].
  - destruct (dict_get key acc); auto.
  - specialize (IH (dict_set (lower n) n acc) key).
    destruct (dict_get key (fold_left _ names _)) as [v|].
    + destruct IH as [[H1 H2] | H].
      * left. split; [right; exact H1 | exact H2].
      * cbn [dict_set dict_get] in H.
        destruct (str_eqb key (lower n)) eqn:E.
        -- injection H as <-. apply str_eqb_eq in E.
           left. split; [left; reflexivity | congruence].
        -- right. exact H.
    + destruct IH as [H1 H2]. cbn [dict_set dict_get] in H2.
      destruct (str_eqb key (lower n)) eqn:E; [discriminate|].
      split; [|exact H2]. cbn [existsb]. rewrite H1, orb_false_r.
      apply str_eqb_neq. apply str_eqb_neq in E. congruence.
Qed.

End IncludeNames.

(** X18. With the map [collect_include_name_map] builds from the include
    files, [normalize_include_name] changes the case of letters only: the
    result and the name are equal in lower case; the result is the name of
    an include file when one has that lower-case name, and the name itself
    otherwise; normalizing the result again changes nothing. *)
Theorem normalize_include_name_canonical (names : list str) (name : str) :
  let m := Port.collect_include_name_map names in
  let r := Port.normalize_include_name name m in
  lower r = lower name
  /\ (if existsb (fun x => str_eqb (lower x) (lower name)) names
      then In r names else r = name)
  /\ Port.normalize_include_name r m = r.
Proof.
  intros m r. subst m r.
  unfold Port.normalize_include_name, Port.collect_include_name_map.
  pose proof (collect_fold_get names [] (lower name)) as H.
  destruct (Port.dict_get (lower name) _) as [v|] eqn:E.
  - destruct H as [[H1 H2] | H]; [|discriminate].
    split; [exact H2|]. split.
    + replace (existsb _ names) with true; [exact H1|].
      symmetry. apply existsb_exists. exists v. split; [exact H1|].
      apply str_eqb_eq, H2.
    + rewrite H2, E. reflexivity.
  - destruct H as [H _]. rewrite H, E. auto.
Qed.

(** ** The header of an example *)

Section Header.

Import Port.

Lemma header_loop_spec (suf : list str) :
  forall pre fuel,
    length suf <= fuel ->
    exists idx,
      header_loop fuel (pre ++ suf) (length pre) = Ok idx
      /\ length pre <= idx <= length (pre ++ suf)
      /\ firstn idx (pre ++ suf) = pre ++ firstn (idx - length pre) suf
      /\ forallb header_line (firstn (idx - length pre) suf) = true
      /\ match nth_error (pre ++ suf) idx with
         | Some l => header_line l = false
         | None => idx = length (pre ++ suf)
         end.
Proof.
  induction suf as [|l suf IH]; intros pre fuel Hf.
  - exists (length pre). rewrite app_nil_r.
    replace (header_loop fuel pre (length pre)) with (@Ok nat (length pre))
      by (destruct fuel; simpl; rewrite Nat.ltb_irrefl; reflexivity).
    rewrite Nat.sub_diag, firstn_all, app_nil_r.
    replace (nth_error pre (length pre)) with (@None str)
      by (symmetry; apply nth_error_None; lia).
    repeat split; auto.
  - destruct fuel as [|fuel]; [simpl in Hf; lia|].
    cbn [header_loop].
    replace (length pre <? length (pre ++ l :: suf)) with true
      by (symmetry; apply Nat.ltb_lt; rewrite length_app; simpl; lia).
    assert (En : nth_error (pre ++ l :: suf) (length pre) = Some l).
    { rewrite nth_error_app2 by lia. rewrite Nat.sub_diag. reflexivity. }
    rewrite En. destruct (header_line l) eqn:Hl.
    + destruct (IH (pre ++ [l]) fuel ltac:(simpl in Hf; lia))
        as (idx & H1 & H2 & H3 & H4 & H5).
      rewrite <- app_assoc in H1, H2, H3, H5. cbn [app] in H1, H2, H3, H5.
      rewrite length_app in H1, H2, H3, H4. cbn [length] in H1, H2, H3, H4.
      exists idx. split; [exact H1|]. split; [lia|].
      replace (idx - length pre) with (S (idx - (length pre + 1))) by lia.
      cbn [firstn forallb]. rewrite Hl, H4. repeat split; auto.
      rewrite H3, <- app_assoc. reflexivity.
    + exists (length pre). rewrite Nat.sub_diag, En.
      rewrite firstn_app, Nat.sub_diag, firstn_all. cbn [firstn].
      repeat split; auto. rewrite length_app. lia.
Qed.

End Header.

(** X19. [find_header_insert_index] returns an index between 0 and the
    number of lines: every line before it is blank, a comment line or an
    [#info] or [#define] line, and the line at it, when there is one, is
    none of these. *)
Theorem find_header_insert_index_spec (lines : list str) :
  exists idx,
    Port.find_header_insert_index lines = Ok idx
    /\ idx <= length lines
    /\ forallb Port.header_line (firstn idx lines) = true
    /\ match nth_error lines idx with
       | Some l => Port.header_line l = false
       | None => idx = length lines
       end.
Proof.
  destruct (header_loop_spec lines [] (length lines) (le_n _))
    as (idx & H1 & H2 & H3 & H4 & H5).
  cbn [app length] in *. rewrite Nat.sub_0_r in *.
  exists idx. repeat split; auto; try lia.
Qed.

(** ** System identifiers *)

Section SystemId.

Import Port.

Lemma candidate_of_inj (base : str) (n m : Z) :
  candidate_of base n = candidate_of base m -> n = m.
Proof.
  unfold candidate_of. intros H. apply app_inv_head in H.
  apply app_inv_head in H. apply str_of_int_inj, H.
Qed.

Lemma mem_In (x : str) (used : list str) : mem x used = true <-> In x used.
Proof.
  unfold mem. rewrite existsb_exists. split.
  - intros (y & Hy & E). apply str_eqb_eq in E. subst y. exact Hy.
  - intros H. exists x. split; [exact H | apply str_eqb_refl].
Qed.

(** Among the first [n] values of a test, one fails or all pass. *)
Lemma bounded_search (f : nat -> bool) (n : nat) :
  (exists k, k < n /\ f k = false) \/ (forall k, k < n -> f k = true).
Proof.
  induction n as [|n [(k & Hk & Hf) | IH]].
  - right. intros k Hk. lia.
  - left. exists k. split; [lia | exact Hf].
  - destruct (f n) eqn:E.
    + right. intros k Hk. destruct (Nat.eq_dec k n) as [-> | Hne];
        [exact E | apply IH; lia].
    + left. exists n. split; [lia | exact E].
Qed.

(** One of the first [len(used_ids) + 1] candidates is not in use. *)
Lemma free_candidate (base : str) (s : Z) (used : list str) :
  exists k,
    k < S (length used)
    /\ mem (candidate_of base (s + Z.of_nat k)) used = false.
Proof.
  destruct (bounded_search
              (fun k => mem (candidate_of base (s + Z.of_nat k)) used)
              (S (length used))) as [H | H]; [exact H|].
  exfalso.
  set (L := map (fun k => candidate_of base (s + Z.of_nat k))
                (seq 0 (S (length used)))).
  assert (Hnd : NoDup L).
  { apply Finite.Injective_map_NoDup; [|apply seq_NoDup].
    intros a b E. apply candidate_of_inj in E. lia. }
  assert (Hin : incl L used).
  { intros x Hx. apply in_map_iff in Hx as (k & <- & Hk).
    apply in_seq in Hk. apply mem_In, H. lia. }
  pose proof (NoDup_incl_length Hnd Hin) as Hlen.
  unfold L in Hlen. rewrite length_map, length_seq in Hlen. lia.
Qed.

Lemma suffix_loop_finds (fuel : nat) :
  forall base s used k,
    k < fuel ->
    mem (candidate_of base (s + Z.of_nat k)) used = false ->
    exists j,
      j <= k
      /\ mem (candidate_of base (s + Z.of_nat j)) used = false
      /\ suffix_loop fuel base s used
         = Ok (candidate_of base (s + Z.of_nat j),
               candidate_of base (s + Z.of_nat j) :: used).
Proof.
  induction fuel as [|fuel IH]; intros base s used k Hk Hf; [lia|].
  cbn [suffix_loop]. fold (candidate_of base s).
  destruct (mem (candidate_of base s) used) eqn:E.
  - destruct k as [|k].
    { rewrite Z.add_0_r in Hf. congruence. }
    destruct (IH base (s + 1)%Z used k ltac:(lia)) as (j & Hj & Hm & Hl).
    { replace (s + 1 + Z.of_nat k)%Z with (s + Z.of_nat (S k))%Z by lia.
      exact Hf. }
    exists (S j).
    replace (s + Z.of_nat (S j))%Z with (s + 1 + Z.of_nat j)%Z by lia.
    repeat split; auto. lia.
  - exists 0. rewrite Z.add_0_r. repeat split; auto. lia.
Qed.

Lemma lower_alnum_not_dash (c : ascii) :
  lower_alnum c = true -> is_dash c = false.
Proof.
  destruct c as [[] [] [] [] [] [] [] []]; vm_compute; intros H;
    try discriminate H; reflexivity.
Qed.

Lemma uint_digits (d : Decimal.uint) :
  forallb lower_alnum
    (lit (DecimalString.NilEmpty.string_of_uint d)) = true.
Proof. induction d; simpl; auto. Qed.

Lemma str_of_int_digits (n : Z) :
  (0 <= n)%Z -> forallb lower_alnum (str_of_int n) = true.
Proof.
  intros H. unfold str_of_int. destruct n as [|p|p]; [reflexivity| |lia].
  apply uint_digits.
Qed.

Lemma sub_runs_chars (s : str) :
  forall b, forallb slug_char (sub_runs b s) = true.
Proof.
  induction s as [|c s IH]; intros b; [reflexivity|].
  cbn [sub_runs]. destruct (lower_alnum c) eqn:E.
  - cbn [forallb]. unfold slug_char at 1. rewrite E, IH. reflexivity.
  - destruct b; [apply IH|]. cbn [forallb]. rewrite IH. reflexivity.
Qed.

Lemma sub_runs_dashes (s : str) :
  match sub_runs true s with
  | c :: _ => is_dash c = false
  | [] => True
  end
  /\ double_dash (sub_runs true s) = false
  /\ double_dash (sub_runs false s) = false.
Proof.
  induction s as [|c s (H1 & H2 & H3)]; [simpl; auto|].
  cbn [sub_runs]. destruct (lower_alnum c) eqn:E.
  - apply lower_alnum_not_dash in E.
    cbn [double_dash]. rewrite E, H3. auto.
  - split; [exact H1|]. split; [exact H2|].
    cbn [double_dash]. rewrite H2, orb_false_r.
    destruct (sub_runs true s) as [|d r]; [apply andb_false_r|].
    rewrite H1. apply andb_false_r.
Qed.

Lemma double_dash_app (a b : str) :
  double_dash (a ++ b) = false ->
  double_dash a = false /\ double_dash b = false.
Proof.
  induction a as [|c a IH]; [auto|]. cbn [app double_dash]. intros H.
  apply orb_false_elim in H as [H1 H2]. destruct (IH H2) as [K1 K2].
  split; [|exact K2]. rewrite K1, orb_false_r.
  destruct a as [|d a]; [apply andb_false_r | exact H1].
Qed.

Lemma strip_dash_idem (s : str) : strip_dash (strip_dash s) = strip_dash s.
Proof.
  unfold strip_dash.
  rewrite drop_while_rstrip_by, drop_while_idem, rstrip_by_idem. reflexivity.
Qed.

Lemma strip_dash_double (s : str) :
  double_dash s = false -> double_dash (strip_dash s) = false.
Proof.
  intros H. unfold strip_dash.
  destruct (drop_while_split is_dash s) as (a & Ea & _).
  rewrite Ea in H. apply double_dash_app in H as [_ H].
  destruct (rstrip_by_split is_dash (drop_while is_dash s)) as (b & Eb & _).
  rewrite Eb in H. apply double_dash_app in H as [H _]. exact H.
Qed.

Lemma strip_dash_chars (s : str) :
  forallb slug_char s = true -> forallb slug_char (strip_dash s) = true.
Proof.
  intros H. rewrite forallb_forall in *. intros c Hc. apply H.
  unfold strip_dash in Hc.
  apply (drop_while_incl is_dash s), (rstrip_by_incl is_dash _ c), Hc.
Qed.

Lemma slug_of_spec (seg : str) :
  slug_of seg <> []
  /\ forallb slug_char (slug_of seg) = true
  /\ double_dash (slug_of seg) = false
  /\ strip_dash (slug_of seg) = slug_of seg.
Proof.
  unfold slug_of.
  destruct (str_eqb (strip_dash (sub_runs false (lower seg))) []) eqn:E.
  - repeat split; discriminate.
  - apply str_eqb_neq in E. split; [exact E|]. split; [|split].
    + apply strip_dash_chars, sub_runs_chars.
    + apply strip_dash_double, sub_runs_dashes.
    + apply strip_dash_idem.
Qed.

Lemma join_slugs_chars (slugs : list str) :
  Forall (fun s => forallb slug_char s = true) slugs ->
  forallb id_char (join_char "/"%char slugs) = true.
Proof.
  assert (W : forall s, forallb slug_char s = true ->
                        forallb id_char s = true).
  { intros s H. rewrite forallb_forall in *. intros c Hc.
    specialize (H c Hc). unfold id_char, slug_char in *. rewrite H.
    reflexivity. }
  induction 1 as [|s slugs Hs Hl IH]; [reflexivity|].
  destruct slugs as [|s' slugs']; [apply W, Hs|].
  change (join_char "/"%char (s :: s' :: slugs'))
    with (s ++ "/"%char :: join_char "/"%char (s' :: slugs')).
  rewrite forallb_app, (W s Hs). cbn [forallb andb]. rewrite IH.
  reflexivity.
Qed.

Lemma startswith_app (p s : str) : startswith (p ++ s) p = true.
Proof.
  induction p as [|a p IH]; [destruct s; reflexivity|].
  cbn [app startswith]. rewrite Ascii.eqb_refl. exact IH.
Qed.

Lemma startswith_app_r (s x : str) :
  forall p, startswith s p = true -> startswith (s ++ x) p = true.
Proof.
  induction s as [|c s IH]; intros p Hp.
  - destruct p; [destruct x; reflexivity | discriminate].
  - destruct p as [|a p]; [reflexivity|]. cbn [app startswith] in *.
    apply andb_prop in Hp as [-> Hp]. apply IH, Hp.
Qed.

Lemma system_base_chars (rel : str) :
  startswith (system_base rel) (lit "fragmentarium/") = true
  /\ forallb id_char (system_base rel) = true.
Proof.
  unfold system_base. split; [apply startswith_app|].
  rewrite forallb_app. apply andb_true_intro. split; [reflexivity|].
  apply join_slugs_chars, Forall_map, Forall_forall.
  intros seg _. apply slug_of_spec.
Qed.

Lemma candidate_chars (base : str) (k : Z) :
  (0 <= k)%Z ->
  startswith base (lit "fragmentarium/") = true ->
  forallb id_char base = true ->
  startswith (candidate_of base k) (lit "fragmentarium/") = true
  /\ forallb id_char (candidate_of base k) = true.
Proof.
  intros Hk Hs Hc. unfold candidate_of. split.
  - apply startswith_app_r, Hs.
  - rewrite !forallb_app, Hc. cbn [lit list_ascii_of_string forallb andb].
    change (id_char "-"%char) with true. cbn [andb].
    apply str_of_int_digits in Hk. rewrite forallb_forall in *.
    intros c Hin. unfold id_char. rewrite (Hk c Hin). reflexivity.
Qed.

End SystemId.

(** X20. [make_system_id] returns for every path and every set of
    identifiers in use: its loop ends within one pass more than the set
    has members.  The identifier returned was not in use and is the one
    member added to the set, so that successive calls never return the
    same identifier twice. *)
Theorem make_system_id_fresh (relative_no_ext : str) (used_ids : list str) :
  exists id,
    Port.make_system_id relative_no_ext used_ids = Ok (id, id :: used_ids)
    /\ Port.mem id used_ids = false
    /\ forall extra,
         Port.make_system_id_fuel (S (length used_ids) + extra)
           relative_no_ext used_ids
         = Ok (id, id :: used_ids).
Proof.
  unfold Port.make_system_id, Port.make_system_id_fuel.
  destruct (Port.mem (Port.system_base relative_no_ext) used_ids) eqn:E;
    cbn [negb].
  - destruct (free_candidate (Port.system_base relative_no_ext) 2 used_ids)
      as (k & Hk & Hf).
    destruct (suffix_loop_finds (S (length used_ids)) _ _ _ k Hk Hf)
      as (j & Hj & Hm & Hl).
    exists (Port.candidate_of (Port.system_base relative_no_ext)
                         (2 + Z.of_nat j)).
    split; [exact Hl|]. split; [exact Hm|].
    intros extra.
    destruct (suffix_loop_finds (S (length used_ids) + extra) _ _ _ j
                ltac:(lia) Hm) as (j' & Hj' & Hm' & Hl').
    rewrite Hl'.
    destruct (suffix_loop_finds (S (length used_ids)) _ _ _ j'
                ltac:(lia) Hm') as (j'' & Hj'' & Hm'' & Hl'').
    assert (Ec : Port.candidate_of (Port.system_base relative_no_ext)
                   (2 + Z.of_nat j'')
                 = Port.candidate_of (Port.system_base relative_no_ext)
                     (2 + Z.of_nat j)) by congruence.
    apply candidate_of_inj in Ec.
    assert (j' = j) by lia. subst j'. reflexivity.
  - exists (Port.system_base relative_no_ext). auto.
Qed.

(** X21. The identifier [make_system_id] returns starts with
    [fragmentarium/] and is made of lower-case letters, digits, dashes and
    slashes only. *)
Theorem make_system_id_chars (relative_no_ext : str) (used_ids : list str) :
  exists id used',
    Port.make_system_id relative_no_ext used_ids = Ok (id, used')
    /\ startswith id (lit "fragmentarium/") = true
    /\ forallb Port.id_char id = true.
Proof.
  destruct (system_base_chars relative_no_ext) as [Hs Hc].
  unfold Port.make_system_id, Port.make_system_id_fuel.
  destruct (Port.mem (Port.system_base relative_no_ext) used_ids) eqn:E;
    cbn [negb].
  - destruct (free_candidate (Port.system_base relative_no_ext) 2 used_ids)
      as (k & Hk & Hf).
    destruct (suffix_loop_finds (S (length used_ids)) _ _ _ k Hk Hf)
      as (j & Hj & Hm & Hl).
    rewrite Hl. eexists. eexists. split; [reflexivity|].
    apply candidate_chars; auto. lia.
  - eexists. eexists. split; [reflexivity|]. auto.
Qed.

Section SlugContents.

Import Port.

Lemma dashes_no_alnum (ws : str) :
  forallb is_dash ws = true -> filter lower_alnum ws = [].
Proof.
  induction ws as [|c ws IH]; [reflexivity|]. cbn [forallb filter].
  intros H. apply andb_prop in H as [Hc Hw].
  destruct (lower_alnum c) eqn:E; [|apply IH, Hw].
  apply lower_alnum_not_dash in E. congruence.
Qed.

Lemma filter_alnum_sub_runs (s : str) :
  forall b, filter lower_alnum (sub_runs b s) = filter lower_alnum s.
Proof.
  induction s as [|c s IH]; intros b; [reflexivity|].
  cbn [sub_runs filter]. destruct (lower_alnum c) eqn:E.
  - cbn [filter]. rewrite E, IH. reflexivity.
  - destruct b; [apply IH|]. cbn [filter].
    change (lower_alnum DASH) with false. apply IH.
Qed.

Lemma filter_alnum_strip_dash (s : str) :
  filter lower_alnum (strip_dash s) = filter lower_alnum s.
Proof.
  unfold strip_dash.
  destruct (drop_while_split is_dash s) as (a & Ea & Ha).
  destruct (rstrip_by_split is_dash (drop_while is_dash s)) as (b & Eb & Hb).
  rewrite Ea at 2. rewrite Eb at 2.
  rewrite !filter_app, (dashes_no_alnum a Ha), (dashes_no_alnum b Hb).
  rewrite app_nil_r. reflexivity.
Qed.

Lemma no_alnum_all_dashes (s : str) :
  forallb slug_char s = true ->
  filter lower_alnum s = [] ->
  forallb is_dash s = true.
Proof.
  induction s as [|c s IH]; [reflexivity|]. cbn [forallb filter].
  intros H F. apply andb_prop in H as [Hc Hs]. unfold slug_char in Hc.
  destruct (lower_alnum c); [discriminate|].
  cbn [orb] in Hc. rewrite Hc. apply IH; assumption.
Qed.

Lemma existsb_filter (f : ascii -> bool) (s : str) :
  existsb f s = false -> filter f s = [].
Proof.
  induction s as [|c s IH]; [reflexivity|]. cbn [existsb filter].
  intros H. apply orb_false_elim in H as [-> H]. apply IH, H.
Qed.

Lemma filter_existsb (f : ascii -> bool) (s : str) :
  existsb f s = true -> filter f s <> [].
Proof.
  induction s as [|c s IH]; [discriminate|]. cbn [existsb filter].
  destruct (f c); [discriminate|]. exact IH.
Qed.

Lemma slug_of_contents (seg : str) :
  if has_alnum seg
  then filter lower_alnum (slug_of seg) = filter lower_alnum (lower seg)
  else slug_of seg = lit "item".
Proof.
  unfold has_alnum, slug_of.
  pose proof (filter_alnum_strip_dash (sub_runs false (lower seg))) as F.
  rewrite filter_alnum_sub_runs in F.
  destruct (existsb lower_alnum (lower seg)) eqn:E.
  - apply filter_existsb in E.
    destruct (str_eqb _ []) eqn:N; [|exact F].
    apply str_eqb_eq in N. rewrite N in F. simpl in F. congruence.
  - apply existsb_filter in E. rewrite E in F.
    assert (D : forallb is_dash (strip_dash (sub_runs false (lower seg)))
                = true).
    { apply no_alnum_all_dashes; [|exact F].
      apply strip_dash_chars, sub_runs_chars. }
    assert (N : strip_dash (sub_runs false (lower seg)) = []).
    { rewrite <- strip_dash_idem. unfold strip_dash at 1.
      rewrite (drop_while_all is_dash _ D). reflexivity. }
    rewrite N. reflexivity.
Qed.

End SlugContents.

(** X22. The slug made of a path segment is never empty, is made of
    lower-case letters, digits and dashes, has no two dashes in a row and
    neither starts nor ends with a dash.  When the segment has a letter or
    a digit once in lower case, the letters and digits of the slug are
    those of the lower-case segment, in order; when it has none, the slug
    is [item]. *)
Theorem slug_of_well_formed (seg : str) :
  Port.slug_of seg <> []
  /\ forallb Port.slug_char (Port.slug_of seg) = true
  /\ Port.double_dash (Port.slug_of seg) = false
  /\ Port.strip_dash (Port.slug_of seg) = Port.slug_of seg
  /\ (if has_alnum seg
      then filter Port.lower_alnum (Port.slug_of seg)
           = filter Port.lower_alnum (lower seg)
      else Port.slug_of seg = lit "item")
  /\ Port.slug_of (lit "___") = lit "item"
  /\ Port.slug_of (lit "Mandel-Bulb (v2)") = lit "mandel-bulb-v2".
Proof.
  destruct (slug_of_spec seg) as (H1 & H2 & H3 & H4).
  pose proof (slug_of_contents seg) as H5.
  repeat split; auto.
Qed.
